(** * Validation of the type model against the rest-api-spec

    A shallow embedding of [compiler/steps/validate-rest-spec.ts]: the
    lookup of a request or interface definition by name ([getDefinition]),
    the recursive flattening of the properties of a definition and of the
    definitions it inherits from ([getProperties]), and the pass that
    compares, endpoint by endpoint, the flattened definition with the json
    spec of the endpoint ([validateRestSpec]).

    The recursion of [getProperties] follows the [inherits] references of
    the model and is not structural, so it is given a fuel argument that
    bounds the depth of the call stack.  Exceptions are a constructor of
    the result type, and the lines written by [console.warn] are collected,
    in order, in a log that is threaded through the pass.

    The pass is embedded twice.  In the first embedding the arrays of the
    model are lists, and the arrays that [getProperties] builds with [push]
    are lists too; the properties of the flattening, of the comparison and
    of the exceptions are proved on it.  In the second the arrays of
    properties live in a heap and [push] writes to the heap; it is proved
    to compute what the first computes and to leave the arrays of the model
    as they were. *)

From stdpp Require Import base tactics option list strings gmap relations.

Set Warnings "-clear-no-such-hyp".

(** ** The type model and the json spec *)

(** The type model is declared in [compiler/model/metamodel.ts] and the
    json spec in [compiler/model/json-spec.ts]; neither file is among the
    sources.  The records below carry the fields that
    [validate-rest-spec.ts] reads. *)

(** Modelled from the spec: the [TypeName] of [metamodel.ts], a [name]
    inside a [namespace]; the pass compares the [name] only. *)
Record TypeName := { tn_name : string; tn_namespace : string }.

(** Modelled from the spec: the [Property] of [metamodel.ts], identified by
    its [name]; no other attribute is read. *)
Record Property := { prop_name : string }.

(** Modelled from the spec: the [Inherits] of [metamodel.ts], a reference
    by name to the definition inherited from ([inherit.type.name]). *)
Record Inherits := { type : TypeName }.

(** Modelled from the spec: the [Request] of [metamodel.ts], with [path]
    and [query] properties, an optional [body], of which only the presence
    is read, and an optional array of [inherits]. *)
Record Request := {
  req_name : TypeName;
  req_path : list Property;
  req_query : list Property;
  req_body : option (list Property);
  req_inherits : option (list Inherits)
}.

(** Modelled from the spec: the [Interface] of [metamodel.ts], with one
    array of [properties] and an optional array of [inherits]. *)
Record Interface := {
  if_name : TypeName;
  if_properties : list Property;
  if_inherits : option (list Inherits)
}.

(** The two kinds of type definition that the pass reads
    ([model.Request | model.Interface]). *)
Inductive RequestOrInterface :=
| KindRequest (r : Request)
| KindInterface (i : Interface).

(** Modelled from the spec: a type definition of [metamodel.ts] is a
    request, an interface, or a definition of another kind (an enum, a
    union, ...), which the pass skips. *)
Inductive TypeDefinition :=
| TypeRI (d : RequestOrInterface)
| TypeOther (name : TypeName).

(** Modelled from the spec: the [Endpoint] of [metamodel.ts], with a [name]
    and an optional [request]. *)
Record Endpoint := { ep_name : string; ep_request : option TypeName }.

(** Modelled from the spec: the [Model] of [metamodel.ts], the [types] and
    the [endpoints], in order. *)
Record Model := { types : list TypeDefinition; endpoints : list Endpoint }.

(** Modelled from the spec: the metadata of a url part or of a parameter in
    [json-spec.ts]; it is never read. *)
Record Metadata := { description : string }.

(** Modelled from the spec: a json object of [json-spec.ts] ([parts],
    [params]), kept as the list of its entries in key order, which is the
    order of [Object.keys]. *)
Definition JsonObject := list (string * Metadata).

Definition Object_keys (o : JsonObject) : list string := o.*1.

(** Modelled from the spec: a path of [url.paths] in [json-spec.ts], with
    optional [parts]. *)
Record UrlPath := { up_path : string; parts : option JsonObject }.

(** Modelled from the spec: the [url] of a json spec. *)
Record Url := { paths : list UrlPath }.

(** Modelled from the spec: the [body] of a json spec; the [required] flag
    may be absent, and the pass tests it against [true]. *)
Record SpecBody := { required : option bool }.

(** Modelled from the spec: the [JsonSpec] of [json-spec.ts], with [url],
    optional [params] and optional [body]. *)
Record JsonSpec := {
  url : Url;
  params : option JsonObject;
  body : option SpecBody
}.

(** ** Results, exceptions and effects *)

Inductive Body := noBody | yesBody.

Definition LOG : string := "ALL"%string.

(** The two [Error]s thrown by the pass: by [getDefinition] ("Can't find
    the request definiton for ...") and by the [assert] on the json spec
    ("Can't find the json spec for ..."). *)
Inductive Error :=
| DefinitionNotFound (name : string)
| SpecNotFound (endpoint : string).

(** A computation returns a value, throws, or exhausts its fuel (the call
    stack of a recursion that does not end). *)
Inductive Result (A : Type) :=
| Ok (a : A)
| Throw (e : Error)
| OutOfFuel.
Arguments Ok {A} a.
Arguments Throw {A} e.
Arguments OutOfFuel {A}.

#[global] Instance Result_ret : MRet Result := fun _ a => Ok a.

#[global] Instance Result_bind : MBind Result := fun _ _ f m =>
  match m with
  | Ok a => f a
  | Throw e => Throw e
  | OutOfFuel => OutOfFuel
  end.

(** [array.map(f)] for an [f] that may throw. *)
Fixpoint mapR {A B} (f : A -> Result B) (l : list A) : Result (list B) :=
  match l with
  | [] => Ok []
  | x :: l => y ← f x; ys ← mapR f l; mret (y :: ys)
  end.

(** [for (const x of l) { acc = f(acc, x) }] for an [f] that may throw. *)
Fixpoint foldR {A S} (f : S -> A -> Result S) (acc : S) (l : list A) : Result S :=
  match l with
  | [] => Ok acc
  | x :: l => acc ← f acc x; foldR f acc l
  end.

(** The warnings of the pass, one constructor per [console.warn] call, in
    source order; [request] is [endpoint.request.name]. *)
Inductive Warning :=
| PathNotInSpec (request name : string)
| PathNotInModel (request name : string)
| QueryNotInSpec (request name : string)
| QueryNotInModel (request name : string)
| ShouldNotIncludeBody (request : string)
| ShouldIncludeBody (request : string).

(** A computation with effects on a state: it changes the state and
    returns, throws, or runs out of fuel.  What was done to the state
    before an exception stays done. *)
Definition Eff (S A : Type) : Type := S -> S * Result A.

Definition ret {S A} (a : A) : Eff S A := fun s => (s, Ok a).

Definition bind {S A B} (m : Eff S A) (f : A -> Eff S B) : Eff S B :=
  fun s =>
    match m s with
    | (s, Ok a) => f a s
    | (s, Throw e) => (s, Throw e)
    | (s, OutOfFuel) => (s, OutOfFuel)
    end.

Definition lift {S A} (r : Result A) : Eff S A := fun s => (s, r).

(** [assert(value, message)] on a value that may be [undefined]. *)
Definition assert {S A} (value : option A) (e : Error) : Eff S A :=
  match value with
  | Some a => ret a
  | None => lift (Throw e)
  end.

Declare Scope eff_scope.
Delimit Scope eff_scope with eff.
Notation "x <- m ;; k" := (bind m (fun x => k))
  (at level 100, m at next level, right associativity) : eff_scope.
Notation "m ;; k" := (bind m (fun _ => k))
  (at level 100, right associativity) : eff_scope.

(** [for (const x of l) { f(x) }]. *)
Fixpoint for_of {S A} (l : list A) (f : A -> Eff S unit) : Eff S unit :=
  match l with
  | [] => ret tt
  | x :: l => (f x ;; for_of l f)%eff
  end.

(** A computation of the pass: the state is the list of the lines written
    to the console so far. *)
Definition Console : Type -> Type := Eff (list Warning).

Definition console_warn (w : Warning) : Console unit := fun log => (log ++ [w], Ok tt).

(** ** Arrays and sets of strings *)

(** [array.includes(name)]. *)
Definition includes (array : list string) (name : string) : bool :=
  existsb (String.eqb name) array.

(** [new Set(array)], kept as the list of its elements in insertion order:
    adding an element that is already there changes nothing. *)
Definition Set_add (s : list string) (x : string) : list string :=
  if includes s x then s else s ++ [x].

Definition new_Set (array : list string) : list string :=
  fold_left Set_add array [].

(** [value == null]. *)
Definition is_null {A} (value : option A) : bool :=
  match value with
  | None => true
  | Some _ => false
  end.

(** [array.push(...items)]. *)
Definition push {A} (array items : list A) : list A := array ++ items.

(** ** The pass *)

Definition kind_name (d : RequestOrInterface) : TypeName :=
  match d with
  | KindRequest r => req_name r
  | KindInterface i => if_name i
  end.

Definition inherits (d : RequestOrInterface) : option (list Inherits) :=
  match d with
  | KindRequest r => req_inherits r
  | KindInterface i => if_inherits i
  end.

(** [getDefinition]: the first request or interface of [model.types] with
    the given name; an [Error] if there is none. *)
Fixpoint getDefinition (types : list TypeDefinition) (name : string)
  : Result RequestOrInterface :=
  match types with
  | [] => Throw (DefinitionNotFound name)
  | TypeRI d :: types =>
      if String.eqb (tn_name (kind_name d)) name then Ok d
      else getDefinition types name
  | TypeOther _ :: types => getDefinition types name
  end.

(** The value returned by [getProperties]. *)
Record Properties := {
  path : list Property;
  query : list Property;
  body_ : Body
}.

(** The part of [getProperties] before the [inherits] are read: the
    properties of the definition itself. *)
Definition ownProperties (definition : RequestOrInterface) : Properties :=
  let path := [] in
  let query := [] in
  let body := noBody in
  match definition with
  | KindRequest r =>
      let path := if 0 <? length (req_path r) then push path (req_path r) else path in
      let query := if 0 <? length (req_query r) then push query (req_query r) else query in
      let body := match req_body r with Some _ => yesBody | None => body end in
      {| path := path; query := query; body_ := body |}
  | KindInterface i =>
      let query :=
        if 0 <? length (if_properties i) then push query (if_properties i) else query in
      {| path := path; query := query; body_ := body |}
  end.

Definition Body_eqb (a b : Body) : bool :=
  match a, b with
  | noBody, noBody | yesBody, yesBody => true
  | _, _ => false
  end.

(** The body of the loop over the inherited definitions, given the
    [properties] of one of them. *)
Definition inheritProperties (acc properties : Properties) : Properties :=
  let path :=
    if 0 <? length (path properties) then push (path acc) (path properties)
    else path acc in
  let query :=
    if 0 <? length (query properties) then push (query acc) (query properties)
    else query acc in
  let body :=
    if negb (Body_eqb (body_ acc) (body_ properties)) then body_ properties
    else body_ acc in
  {| path := path; query := query; body_ := body |}.

(** [getProperties]: recursively gets the properties from the current and
    inherited classes.  All the inherited names are looked up first, then
    the inherited definitions are flattened one after the other. *)
Fixpoint getProperties (types : list TypeDefinition) (fuel : nat)
    (definition : RequestOrInterface) : Result Properties :=
  match fuel with
  | 0 => OutOfFuel
  | S fuel =>
      let own := ownProperties definition in
      match inherits definition with
      | Some inherits_ =>
          inherits ← mapR (fun inherit => getDefinition types (tn_name (type inherit)))
                          inherits_;
          foldR (fun acc inherit =>
                   properties ← getProperties types fuel inherit;
                   mret (inheritProperties acc properties))
                own inherits
      | None => Ok own
      end
  end.

(** The distinct names of the url parts of all the paths of a json spec
    ([Array.from(new Set(...))]); the paths without [parts] are filtered
    out before [flatMap], so its [assert] never fails. *)
Definition urlParts (spec : JsonSpec) : list string :=
  new_Set (flat_map (fun path => match parts path with
                                 | Some parts => Object_keys parts
                                 | None => []
                                 end)
             (filter (fun path => is_Some (parts path)) (paths (url spec)))).

Definition names (properties : list Property) : list string := prop_name <$> properties.

(** The comparison of a flattened definition with the json spec of the
    endpoint: the path parameters, the query parameters when the json spec
    has [params], and the body. *)
Definition reconcile (request : TypeName) (requestDefinition : Properties)
    (spec : JsonSpec) : Console unit :=
  (let urlParts := urlParts spec in
   let pathProperties := names (path requestDefinition) in
   for_of pathProperties (fun name =>
     if negb (includes urlParts name)
     then console_warn (PathNotInSpec (tn_name request) name) else ret tt) ;;
   for_of urlParts (fun name =>
     if negb (includes pathProperties name)
     then console_warn (PathNotInModel (tn_name request) name) else ret tt) ;;
   match params spec with
   | Some params =>
       let params := Object_keys params in
       let queryProperties := names (query requestDefinition) in
       for_of queryProperties (fun name =>
         if negb (includes params name)
         then console_warn (QueryNotInSpec (tn_name request) name) else ret tt) ;;
       for_of params (fun name =>
         if negb (includes queryProperties name)
         then console_warn (QueryNotInModel (tn_name request) name) else ret tt)
   | None => ret tt
   end ;;
   (if Body_eqb (body_ requestDefinition) yesBody && is_null (body spec)
    then console_warn (ShouldNotIncludeBody (tn_name request)) else ret tt) ;;
   (if Body_eqb (body_ requestDefinition) noBody
       && match body spec with
          | Some b => bool_decide (required b = Some true)
          | None => false
          end
    then console_warn (ShouldIncludeBody (tn_name request)) else ret tt))%eff.

(** The body of the loop over the endpoints. *)
Definition validateEndpoint (types : list TypeDefinition) (jsonSpec : gmap string JsonSpec)
    (fuel : nat) (endpoint : Endpoint) : Console unit :=
  match ep_request endpoint with
  | None => ret tt
  | Some request =>
      (definition <- lift (getDefinition types (tn_name request)) ;;
       requestDefinition <- lift (getProperties types fuel definition) ;;
       if String.eqb (tn_name request) LOG || String.eqb LOG "ALL"%string then
         spec <- assert (jsonSpec !! ep_name endpoint) (SpecNotFound (ep_name endpoint)) ;;
         reconcile request requestDefinition spec
       else ret tt)%eff
  end.

(** [validateRestSpec]: validates the model against the rest-api-spec and
    returns the model.  The promise it returns is fulfilled with the model
    ([Ok]) or rejected with the exception ([Throw]). *)
Definition validateRestSpec (fuel : nat) (model : Model) (jsonSpec : gmap string JsonSpec)
  : Console Model :=
  (for_of (endpoints model) (validateEndpoint (types model) jsonSpec fuel) ;;
   ret model)%eff.

(** ** The inheritance graph *)

(** The names a definition inherits from, in declaration order. *)
Definition inherit_names (d : RequestOrInterface) : list string :=
  match inherits d with
  | Some inherits => (fun inherit => tn_name (type inherit)) <$> inherits
  | None => []
  end.

(** [edge types d d']: [d] inherits from a name that [getDefinition]
    resolves to [d']. *)
Definition edge (types : list TypeDefinition) (d d' : RequestOrInterface) : Prop :=
  ∃ name, name ∈ inherit_names d ∧ getDefinition types name = Ok d'.

(** No request and no interface of the model bears the name. *)
Definition undefined_name (types : list TypeDefinition) (name : string) : Prop :=
  ∀ d, TypeRI d ∈ types → tn_name (kind_name d) ≠ name.

(** [dangling types d]: [d] inherits from a name that has no definition. *)
Definition dangling (types : list TypeDefinition) (d : RequestOrInterface) : Prop :=
  ∃ name, name ∈ inherit_names d ∧ undefined_name types name.

(** A definition and its transitive ancestors. *)
Definition ancestor (types : list TypeDefinition) : relation RequestOrInterface :=
  rtc (edge types).

(** The inheritance graph has no cycle. *)
Definition acyclic (types : list TypeDefinition) : Prop :=
  ∀ d, ¬ tc (edge types) d d.

(** [chain types d l]: [l] is a path of the inheritance graph that starts
    at an inherited definition of [d]. *)
Fixpoint chain (types : list TypeDefinition) (d : RequestOrInterface)
    (l : list RequestOrInterface) : Prop :=
  match l with
  | [] => True
  | d' :: l => edge types d d' ∧ chain types d' l
  end.

(** What a definition declares itself. *)
Definition own_path (d : RequestOrInterface) : list Property :=
  match d with
  | KindRequest r => req_path r
  | KindInterface _ => []
  end.

Definition own_query (d : RequestOrInterface) : list Property :=
  match d with
  | KindRequest r => req_query r
  | KindInterface i => if_properties i
  end.

Definition declares_body (d : RequestOrInterface) : Prop :=
  match d with
  | KindRequest r => is_Some (req_body r)
  | KindInterface _ => False
  end.

(** A certificate that the graph has no cycle: a rank on the names that
    decreases along every [inherits] reference of the model. *)
Definition ranked (types : list TypeDefinition) (rank : string -> nat) : bool :=
  forallb (fun t =>
             match t with
             | TypeRI d =>
                 forallb (fun name => rank name <? rank (tn_name (kind_name d)))
                         (inherit_names d)
             | TypeOther _ => true
             end) types.

(** ** The warnings of an endpoint *)

#[global] Instance Warning_eq_dec : EqDecision Warning.
Proof. solve_decision. Defined.

(** The names of [l] that are not in [present], in the order of [l]. *)
Definition missing_from (present l : list string) : list string :=
  filter (fun name => name ∉ present) l.

Definition pathWarnings (request : string) (r : Properties) (spec : JsonSpec)
  : list Warning :=
  (PathNotInSpec request <$> missing_from (urlParts spec) (names (path r))) ++
  (PathNotInModel request <$> missing_from (names (path r)) (urlParts spec)).

Definition queryWarnings (request : string) (r : Properties) (spec : JsonSpec)
  : list Warning :=
  match params spec with
  | Some params =>
      (QueryNotInSpec request <$> missing_from (Object_keys params) (names (query r))) ++
      (QueryNotInModel request <$> missing_from (names (query r)) (Object_keys params))
  | None => []
  end.

Definition bodyWarnings (request : string) (r : Properties) (spec : JsonSpec)
  : list Warning :=
  match body_ r, body spec with
  | yesBody, None => [ShouldNotIncludeBody request]
  | yesBody, Some _ => []
  | noBody, Some b => if bool_decide (required b = Some true)
                      then [ShouldIncludeBody request] else []
  | noBody, None => []
  end.

Definition endpointWarnings (request : string) (r : Properties) (spec : JsonSpec)
  : list Warning :=
  pathWarnings request r spec ++ queryWarnings request r spec ++ bodyWarnings request r spec.

Definition is_path_warning (w : Warning) : bool :=
  match w with
  | PathNotInSpec _ _ | PathNotInModel _ _ => true
  | _ => false
  end.

Definition is_body_warning (w : Warning) : bool :=
  match w with
  | ShouldNotIncludeBody _ | ShouldIncludeBody _ => true
  | _ => false
  end.

(** ** Endpoints that make the pass throw *)

(** The request of the endpoint, or a name that the request or one of its
    ancestors inherits from, has no definition. *)
Definition missing_definition (types : list TypeDefinition) (endpoint : Endpoint) : Prop :=
  ∃ request, ep_request endpoint = Some request ∧
    (undefined_name types (tn_name request) ∨
     ∃ d a, getDefinition types (tn_name request) = Ok d ∧
            ancestor types d a ∧ dangling types a).

(** The endpoint has a request and no json spec. *)
Definition missing_spec (jsonSpec : gmap string JsonSpec) (endpoint : Endpoint) : Prop :=
  ∃ request, ep_request endpoint = Some request ∧ jsonSpec !! ep_name endpoint = None.

(** ** Names that occur more than once *)



(** ** The arrays of properties as objects

    [getProperties] fills two arrays with [push].  To see that the arrays
    it writes to are never arrays of the model, the arrays of properties
    are placed in a heap: an array is known by its address, the model holds
    addresses, [const path = []] allocates, [path.push(...items)] updates
    the heap at the address of [path], and the spread [...items] reads the
    array [items] from the heap. *)

(** The address of an array, and the heap: the arrays by address.  An
    address outside the heap reads as the empty array; [allocated], below,
    says that the model holds no such address. *)
Abbreviation Ref := nat (only parsing).

Abbreviation Heap := (list (list Property)) (only parsing).

(** The definitions of the model with the addresses of their arrays. *)
Record RequestObj := {
  obj_req_name : TypeName;
  obj_req_path : Ref;
  obj_req_query : Ref;
  obj_req_body : option Ref;
  obj_req_inherits : option (list Inherits)
}.

Record InterfaceObj := {
  obj_if_name : TypeName;
  obj_if_properties : Ref;
  obj_if_inherits : option (list Inherits)
}.

Inductive DefinitionObj :=
| ObjRequest (r : RequestObj)
| ObjInterface (i : InterfaceObj).

Inductive TypeObj :=
| ObjRI (d : DefinitionObj)
| ObjOther (name : TypeName).

Record ModelObj := { obj_types : list TypeObj; obj_endpoints : list Endpoint }.

(** The object returned by [getProperties]: two new arrays and the body. *)
Record PropertiesObj := { obj_path : Ref; obj_query : Ref; obj_body : Body }.

(** [[]]: a new array. *)
Definition new_array : Eff Heap Ref := fun heap => (heap ++ [[]], Ok (length heap)).

(** [...array]: the elements of an array. *)
Definition spread (array : Ref) : Eff Heap (list Property) :=
  fun heap => (heap, Ok (default [] (heap !! array))).

(** [array.push(...items)], in place. *)
Definition push_to (array : Ref) (items : list Property) : Eff Heap unit :=
  fun heap => (alter (fun elements => push elements items) array heap, Ok tt).

Definition obj_name (d : DefinitionObj) : TypeName :=
  match d with
  | ObjRequest r => obj_req_name r
  | ObjInterface i => obj_if_name i
  end.

Definition obj_inherits (d : DefinitionObj) : option (list Inherits) :=
  match d with
  | ObjRequest r => obj_req_inherits r
  | ObjInterface i => obj_if_inherits i
  end.

(** [getDefinition] and [getProperties] on the objects. *)
Fixpoint getDefinitionObj (types : list TypeObj) (name : string) : Result DefinitionObj :=
  match types with
  | [] => Throw (DefinitionNotFound name)
  | ObjRI d :: types =>
      if String.eqb (tn_name (obj_name d)) name then Ok d
      else getDefinitionObj types name
  | ObjOther _ :: types => getDefinitionObj types name
  end.

(** [if (items.length > 0) array.push(...items)]. *)
Definition push_all (array items : Ref) : Eff Heap unit :=
  (elements <- spread items ;;
   if 0 <? length elements then push_to array elements else ret tt)%eff.

(** [for (const x of l) { acc = f(acc, x) }] with effects. *)
Fixpoint fold_of {S A B} (f : B -> A -> Eff S B) (acc : B) (l : list A) : Eff S B :=
  match l with
  | [] => ret acc
  | x :: l => (acc <- f acc x ;; fold_of f acc l)%eff
  end.

Fixpoint getPropertiesObj (types : list TypeObj) (fuel : nat) (definition : DefinitionObj)
  : Eff Heap PropertiesObj :=
  match fuel with
  | 0 => lift OutOfFuel
  | S fuel =>
      (path <- new_array ;;
       query <- new_array ;;
       let body := noBody in
       body <- match definition with
               | ObjRequest r =>
                   push_all path (obj_req_path r) ;;
                   push_all query (obj_req_query r) ;;
                   ret (match obj_req_body r with Some _ => yesBody | None => body end)
               | ObjInterface i =>
                   push_all query (obj_if_properties i) ;;
                   ret body
               end ;;
       body <- match obj_inherits definition with
               | Some inherits_ =>
                   inherits <- lift (mapR (fun inherit =>
                                             getDefinitionObj types (tn_name (type inherit)))
                                          inherits_) ;;
                   fold_of (fun body inherit =>
                              properties <- getPropertiesObj types fuel inherit ;;
                              push_all path (obj_path properties) ;;
                              push_all query (obj_query properties) ;;
                              ret (if negb (Body_eqb body (obj_body properties))
                                   then obj_body properties else body))
                           body inherits
               | None => ret body
               end ;;
       ret {| obj_path := path; obj_query := query; obj_body := body |})%eff
  end.

(** A computation on the heap, or on the console, inside the pass, whose
    state is the heap and the console. *)
Definition on_heap {A} (m : Eff Heap A) : Eff (Heap * list Warning) A :=
  fun '(heap, log) => let '(heap, r) := m heap in ((heap, log), r).

Definition on_console {A} (m : Console A) : Eff (Heap * list Warning) A :=
  fun '(heap, log) => let '(log, r) := m log in ((heap, log), r).

(** The flattened properties as the comparison reads them: [.map] over the
    two arrays. *)
Definition readProperties (properties : PropertiesObj) : Eff Heap Properties :=
  (path <- spread (obj_path properties) ;;
   query <- spread (obj_query properties) ;;
   ret {| path := path; query := query; body_ := obj_body properties |})%eff.

(** The body of the loop over the endpoints, and the pass, on the
    objects. *)
Definition validateEndpointObj (types : list TypeObj) (jsonSpec : gmap string JsonSpec)
    (fuel : nat) (endpoint : Endpoint) : Eff (Heap * list Warning) unit :=
  match ep_request endpoint with
  | None => ret tt
  | Some request =>
      (definition <- lift (getDefinitionObj types (tn_name request)) ;;
       requestDefinition <- on_heap (getPropertiesObj types fuel definition) ;;
       if String.eqb (tn_name request) LOG || String.eqb LOG "ALL"%string then
         spec <- assert (jsonSpec !! ep_name endpoint) (SpecNotFound (ep_name endpoint)) ;;
         requestDefinition <- on_heap (readProperties requestDefinition) ;;
         on_console (reconcile request requestDefinition spec)
       else ret tt)%eff
  end.

Definition validateRestSpecObj (fuel : nat) (model : ModelObj)
    (jsonSpec : gmap string JsonSpec) : Eff (Heap * list Warning) ModelObj :=
  (for_of (obj_endpoints model) (validateEndpointObj (obj_types model) jsonSpec fuel) ;;
   ret model)%eff.

(** The model that a model of objects stands for in a heap. *)
Definition read (heap : Heap) (array : Ref) : list Property := default [] (heap !! array).

Definition definition_in (heap : Heap) (d : DefinitionObj) : RequestOrInterface :=
  match d with
  | ObjRequest r =>
      KindRequest {| req_name := obj_req_name r;
                     req_path := read heap (obj_req_path r);
                     req_query := read heap (obj_req_query r);
                     req_body := read heap <$> obj_req_body r;
                     req_inherits := obj_req_inherits r |}
  | ObjInterface i =>
      KindInterface {| if_name := obj_if_name i;
                       if_properties := read heap (obj_if_properties i);
                       if_inherits := obj_if_inherits i |}
  end.

Definition type_in (heap : Heap) (t : TypeObj) : TypeDefinition :=
  match t with
  | ObjRI d => TypeRI (definition_in heap d)
  | ObjOther name => TypeOther name
  end.

Definition model_in (heap : Heap) (model : ModelObj) : Model :=
  {| types := type_in heap <$> obj_types model; endpoints := obj_endpoints model |}.

Definition properties_in (heap : Heap) (properties : PropertiesObj) : Properties :=
  {| path := read heap (obj_path properties);
     query := read heap (obj_query properties);
     body_ := obj_body properties |}.

(** The addresses held by a definition of the model. *)
Definition definition_refs (d : DefinitionObj) : list Ref :=
  match d with
  | ObjRequest r =>
      obj_req_path r :: obj_req_query r ::
      match obj_req_body r with Some body => [body] | None => [] end
  | ObjInterface i => [obj_if_properties i]
  end.

Definition type_refs (t : TypeObj) : list Ref :=
  match t with
  | ObjRI d => definition_refs d
  | ObjOther _ => []
  end.

(** The arrays of the model are arrays of the heap. *)
Definition allocated (heap : Heap) (types : list TypeObj) : Prop :=
  ∀ t array, t ∈ types → array ∈ type_refs t → array < length heap.

#[global] Instance Result_fmap : FMap Result := fun _ _ f r =>
  match r with
  | Ok a => Ok (f a)
  | Throw e => Throw e
  | OutOfFuel => OutOfFuel
  end.

(** The names a definition of the heap inherits from. *)
Definition obj_inherit_names (d : DefinitionObj) : list string :=
  match obj_inherits d with
  | Some inherits => (fun inherit => tn_name (type inherit)) <$> inherits
  | None => []
  end.

(** The body of the loop of [getPropertiesObj], for the arrays [path] and
    [query] of the caller. *)
Definition inheritObj (types : list TypeObj) (fuel : nat) (path query : Ref)
    (body : Body) (inherit : DefinitionObj) : Eff Heap Body :=
  (properties <- getPropertiesObj types fuel inherit ;;
   push_all path (obj_path properties) ;;
   push_all query (obj_query properties) ;;
   ret (if negb (Body_eqb body (obj_body properties))
        then obj_body properties else body))%eff.

(** What a run of [getPropertiesObj] does, in terms of [getProperties] on
    the model that the objects stand for: it only adds arrays to the heap,
    and the two arrays it returns hold the flattened properties. *)
Definition refines (types : list TypeObj) (fuel : nat) : Prop :=
  ∀ d heap heap' res,
    allocated heap types → ObjRI d ∈ types →
    getPropertiesObj types fuel d heap = (heap', res) →
    (∃ ext, heap' = heap ++ ext) ∧
    (∀ p, res = Ok p → obj_path p = length heap ∧ obj_query p = S (length heap)) ∧
    getProperties (type_in heap <$> types) fuel (definition_in heap d)
    = properties_in heap' <$> res.

(** ** Example models *)

(** A type name in the global namespace, and a property with a name. *)
Definition global (name : string) : TypeName :=
  {| tn_name := name; tn_namespace := "_global"%string |}.

Definition property (name : string) : Property := {| prop_name := name |}.

(** [MultiGetRequest] as [specs2/document/multiple/multi_get/request/
    MultiGetRequest.ts] declares it: the fields marked [request_parameter]
    are query parameters, [docs] is the body, and the class extends
    [RequestBase], a base without properties of its own. *)
Definition RequestBase : RequestOrInterface :=
  KindInterface {| if_name := global "RequestBase";
                   if_properties := [];
                   if_inherits := None |}.

Definition MultiGetRequest : RequestOrInterface :=
  KindRequest {| req_name := global "MultiGetRequest";
                 req_path := [];
                 req_query := property <$> ["stored_fields"; "preference"; "realtime";
                                            "refresh"; "routing"; "source_enabled";
                                            "source_exclude"; "source_include"]%string;
                 req_body := Some [property "docs"];
                 req_inherits := Some [ {| type := global "RequestBase" |} ] |}.

Definition example_types : list TypeDefinition :=
  [TypeRI MultiGetRequest; TypeOther (global "Refresh"); TypeRI RequestBase].

(** A request that inherits its path parameters from two definitions. *)
Definition WithId : RequestOrInterface :=
  KindRequest {| req_name := global "WithId"; req_path := [property "id"];
                 req_query := []; req_body := None; req_inherits := None |}.

Definition WithIndex : RequestOrInterface :=
  KindRequest {| req_name := global "WithIndex"; req_path := [property "index"];
                 req_query := [property "routing"]; req_body := None;
                 req_inherits := None |}.

Definition GetRequest : RequestOrInterface :=
  KindRequest {| req_name := global "GetRequest"; req_path := [];
                 req_query := []; req_body := None;
                 req_inherits := Some [ {| type := global "WithId" |};
                                        {| type := global "WithIndex" |} ] |}.

Definition union_types : list TypeDefinition :=
  [TypeRI GetRequest; TypeRI WithId; TypeRI WithIndex].

Definition union_rank (name : string) : nat :=
  if String.eqb name "GetRequest" then 1 else 0.

(** A definition that inherits from itself. *)
Definition Loop : RequestOrInterface :=
  KindInterface {| if_name := global "Loop"; if_properties := [];
                   if_inherits := Some [ {| type := global "Loop" |} ] |}.

Definition no_metadata : Metadata := {| description := EmptyString |}.

(** The endpoint of [MultiGetRequest] and its json spec, whose body is
    required. *)
Definition mget : Endpoint :=
  {| ep_name := "mget"; ep_request := Some (global "MultiGetRequest") |}.

Definition mget_spec : JsonSpec :=
  {| url := {| paths := [ {| up_path := "/_mget"; parts := None |};
                          {| up_path := "/{index}/_mget";
                             parts := Some [("index"%string, no_metadata)] |} ] |};
     params := Some ((fun name => (name, no_metadata)) <$>
                       ["stored_fields"; "preference"; "realtime"; "refresh"; "routing";
                        "_source"]%string);
     body := Some {| required := Some true |} |}.

(** An endpoint whose request declares the path parameter [id], and a json
    spec whose paths have the parts [id] and [version]. *)
Definition get_id : Endpoint :=
  {| ep_name := "get_id"; ep_request := Some (global "WithId") |}.

Definition get_id_spec : JsonSpec :=
  {| url := {| paths := [ {| up_path := "/{id}";
                             parts := Some [("id"%string, no_metadata)] |};
                          {| up_path := "/_all"; parts := None |};
                          {| up_path := "/{id}/{version}";
                             parts := Some [("id"%string, no_metadata);
                                            ("version"%string, no_metadata)] |} ] |};
     params := None;
     body := None |}.

Definition example_jsonSpec : gmap string JsonSpec :=
  <["mget"%string := mget_spec]> (<["get_id"%string := get_id_spec]> ∅).

(** Two endpoints: the first is compared with its json spec, the request
    of the second has no definition. *)
Definition gone : Endpoint :=
  {| ep_name := "gone"; ep_request := Some (global "Missing") |}.

Definition gone_model : Model :=
  {| types := union_types; endpoints := [get_id; gone] |}.

(** A request that inherits the path parameter [id] along two ways, and an
    endpoint whose json spec has no url part. *)
Definition Left : RequestOrInterface :=
  KindInterface {| if_name := global "Left"; if_properties := [];
                   if_inherits := Some [ {| type := global "WithId" |} ] |}.

Definition Right : RequestOrInterface :=
  KindInterface {| if_name := global "Right"; if_properties := [];
                   if_inherits := Some [ {| type := global "WithId" |} ] |}.

Definition Both : RequestOrInterface :=
  KindRequest {| req_name := global "Both"; req_path := []; req_query := [];
                 req_body := None;
                 req_inherits := Some [ {| type := global "Left" |};
                                        {| type := global "Right" |} ] |}.

Definition diamond_types : list TypeDefinition :=
  [TypeRI Both; TypeRI Left; TypeRI Right; TypeRI WithId].


(** [GetRequest] and the definitions it inherits from, as objects: the
    arrays of the model are the six arrays of [union_heap]. *)
Definition union_heap : Heap :=
  [[]; []; [property "id"]; []; [property "index"]; [property "routing"]].

Definition union_objects : list TypeObj :=
  [ObjRI (ObjRequest {| obj_req_name := global "GetRequest";
                        obj_req_path := 0; obj_req_query := 1; obj_req_body := None;
                        obj_req_inherits := Some [ {| type := global "WithId" |};
                                                   {| type := global "WithIndex" |} ] |});
   ObjRI (ObjRequest {| obj_req_name := global "WithId";
                        obj_req_path := 2; obj_req_query := 3; obj_req_body := None;
                        obj_req_inherits := None |});
   ObjRI (ObjRequest {| obj_req_name := global "WithIndex";
                        obj_req_path := 4; obj_req_query := 5; obj_req_body := None;
                        obj_req_inherits := None |})].

Definition get : Endpoint :=
  {| ep_name := "get"; ep_request := Some (global "GetRequest") |}.

Definition get_spec : JsonSpec :=
  {| url := {| paths := [ {| up_path := "/{index}/_doc/{id}";
                             parts := Some [("index"%string, no_metadata);
                                            ("id"%string, no_metadata)] |} ] |};
     params := Some [("preference"%string, no_metadata)];
     body := None |}.

Definition union_model : ModelObj :=
  {| obj_types := union_objects; obj_endpoints := [get; get] |}.

Definition union_jsonSpec : gmap string JsonSpec := <["get"%string := get_spec]> ∅.

(** ** More about the warnings, the url parts and the examples *)

Definition is_query_warning (w : Warning) : bool :=
  match w with
  | QueryNotInSpec _ _ | QueryNotInModel _ _ => true
  | _ => false
  end.

(** The request that a warning is about. *)
Definition warning_request (w : Warning) : string :=
  match w with
  | PathNotInSpec request _ | PathNotInModel request _
  | QueryNotInSpec request _ | QueryNotInModel request _
  | ShouldNotIncludeBody request | ShouldIncludeBody request => request
  end.

(** The names of the parts of a path; none when the path has no [parts]. *)
Definition part_names (path : UrlPath) : list string :=
  match parts path with
  | Some parts => Object_keys parts
  | None => []
  end.

(** What the body of the loop over the endpoints writes for one endpoint,
    on an empty console. *)
Definition endpointLog (types : list TypeDefinition) (jsonSpec : gmap string JsonSpec)
    (fuel : nat) (endpoint : Endpoint) : list Warning :=
  (validateEndpoint types jsonSpec fuel endpoint []).1.

(** A definition that inherits from [Loop], which is on a cycle, and then
    from a name without a definition. *)
Definition Dangling : RequestOrInterface :=
  KindInterface {| if_name := global "Dangling"; if_properties := [];
                   if_inherits := Some [ {| type := global "Loop" |};
                                         {| type := global "Missing" |} ] |}.

Definition loop_types : list TypeDefinition := [TypeRI Loop; TypeRI Dangling].

(** A definition whose inherited definition inherits from a name without a
    definition. *)
Definition Child : RequestOrInterface :=
  KindRequest {| req_name := global "Child"; req_path := []; req_query := [];
                 req_body := None;
                 req_inherits := Some [ {| type := global "Parent" |} ] |}.

Definition Parent : RequestOrInterface :=
  KindInterface {| if_name := global "Parent"; if_properties := [property "pretty"];
                   if_inherits := Some [ {| type := global "Missing" |} ] |}.

Definition orphan_types : list TypeDefinition := [TypeRI Child; TypeRI Parent].

(** An endpoint whose request has a definition and which has no json
    spec, after an endpoint that has one. *)
Definition no_spec : Endpoint :=
  {| ep_name := "no_spec"; ep_request := Some (global "WithIndex") |}.

Definition no_spec_model : Model :=
  {| types := union_types; endpoints := [get_id; no_spec; get_id] |}.

(** [union_model] with an endpoint whose request has no definition. *)
Definition gone_objects : ModelObj :=
  {| obj_types := union_objects; obj_endpoints := [get; gone; get] |}.

(** ** The definition that decides the flattened body *)

(** [last_inherit types d d']: [d'] is the definition of the last name in
    the [inherits] of [d]. *)
Definition last_inherit (types : list TypeDefinition) (d d' : RequestOrInterface) : Prop :=
  ∃ front name, inherit_names d = front ++ [name] ∧ getDefinition types name = Ok d'.

(** [body_source types d t]: [t] is reached from [d] by going to the last
    inherited definition again and again, and inherits from nothing. *)
Definition body_source (types : list TypeDefinition) (d t : RequestOrInterface) : Prop :=
  rtc (last_inherit types) d t ∧ inherit_names t = [].

(** [if (body !== properties.body) body = properties.body]. *)
Definition overwrite (body : Body) (properties : Properties) : Body :=
  if negb (Body_eqb body (body_ properties)) then body_ properties else body.

(** Definitions with and without a body, inherited in the two orders, and
    a definition that inherits one of them last. *)
Definition HasBody : RequestOrInterface :=
  KindRequest {| req_name := global "HasBody"; req_path := []; req_query := [];
                 req_body := Some [property "docs"]; req_inherits := None |}.

Definition Plain : RequestOrInterface :=
  KindRequest {| req_name := global "Plain"; req_path := [];
                 req_query := [property "pretty"]; req_body := None;
                 req_inherits := Some [] |}.

Definition BodyLast : RequestOrInterface :=
  KindRequest {| req_name := global "BodyLast"; req_path := []; req_query := [];
                 req_body := None;
                 req_inherits := Some [ {| type := global "Plain" |};
                                        {| type := global "HasBody" |} ] |}.

Definition BodyFirst : RequestOrInterface :=
  KindRequest {| req_name := global "BodyFirst"; req_path := []; req_query := [];
                 req_body := Some [property "docs"];
                 req_inherits := Some [ {| type := global "HasBody" |};
                                        {| type := global "Plain" |} ] |}.

Definition Deep : RequestOrInterface :=
  KindInterface {| if_name := global "Deep"; if_properties := [];
                   if_inherits := Some [ {| type := global "BodyFirst" |};
                                         {| type := global "Plain" |};
                                         {| type := global "BodyLast" |} ] |}.

Definition body_types : list TypeDefinition :=
  [TypeRI Deep; TypeRI BodyLast; TypeRI BodyFirst; TypeRI HasBody; TypeRI Plain].

Definition body_rank (name : string) : nat :=
  if String.eqb name "Deep" then 2
  else if String.eqb name "BodyLast" || String.eqb name "BodyFirst" then 1
  else 0.

(** * Properties *)

(** ** Arrays, sets and loops *)

Lemma includes_true array name : includes array name = true ↔ name ∈ array.
Proof.
  unfold includes. rewrite existsb_exists. setoid_rewrite String.eqb_eq.
  setoid_rewrite <- list_elem_of_In. naive_solver.
Qed.

Lemma includes_false array name : includes array name = false ↔ name ∉ array.
Proof. rewrite <- includes_true. destruct (includes array name); naive_solver. Qed.

Lemma Set_add_elem_of s x y : y ∈ Set_add s x ↔ y ∈ s ∨ y = x.
Proof.
  unfold Set_add. destruct (includes s x) eqn:E.
  - apply includes_true in E. naive_solver.
  - rewrite elem_of_app, list_elem_of_singleton. done.
Qed.

Lemma Set_add_NoDup s x : NoDup s → NoDup (Set_add s x).
Proof.
  intros Hs. unfold Set_add. destruct (includes s x) eqn:E; [done|].
  apply includes_false in E. apply NoDup_app. split_and!; [done| |apply NoDup_singleton].
  intros y Hy ->%list_elem_of_singleton. done.
Qed.

Lemma fold_Set_add_elem_of array s y :
  y ∈ fold_left Set_add array s ↔ y ∈ s ∨ y ∈ array.
Proof.
  revert s. induction array as [|x array IH]; intros s; simpl.
  - rewrite elem_of_nil. naive_solver.
  - rewrite IH, Set_add_elem_of, elem_of_cons. naive_solver.
Qed.

Lemma fold_Set_add_NoDup array s : NoDup s → NoDup (fold_left Set_add array s).
Proof.
  revert s. induction array as [|x array IH]; intros s Hs; simpl; [done|].
  apply IH, Set_add_NoDup, Hs.
Qed.

Lemma new_Set_elem_of array y : y ∈ new_Set array ↔ y ∈ array.
Proof. unfold new_Set. rewrite fold_Set_add_elem_of, elem_of_nil. naive_solver. Qed.

Lemma new_Set_NoDup array : NoDup (new_Set array).
Proof. apply fold_Set_add_NoDup, NoDup_nil_2. Qed.

Lemma mapR_Ok {A B} (f : A -> Result B) l ys :
  mapR f l = Ok ys ↔ Forall2 (fun x y => f x = Ok y) l ys.
Proof.
  revert ys. induction l as [|x l IH]; intros ys; simpl.
  - split; [intros [= <-]; constructor | by inversion 1].
  - unfold mbind, Result_bind, mret, Result_ret. split.
    + destruct (f x) as [y| |] eqn:Ey; [|done..].
      destruct (mapR f l) as [ys'| |]; [|done..].
      intros [= <-]. constructor; [done|]. by apply IH.
    + inversion 1 as [|? y ? ys' Ey Hl]; subst. rewrite Ey.
      apply IH in Hl. by rewrite Hl.
Qed.

Lemma foldR_Ok {A B S} (f : A -> Result B) (step : S -> B -> S) l ys acc :
  Forall2 (fun x y => f x = Ok y) l ys →
  foldR (fun acc x => y ← f x; mret (step acc y)) acc l = Ok (foldl step acc ys).
Proof.
  intros H. revert acc. induction H as [|x y l ys Ey _ IH]; intros acc; simpl; [done|].
  rewrite Ey. simpl. apply IH.
Qed.

Lemma foldR_Ok_inv {A B S} (f : A -> Result B) (step : S -> B -> S) l acc s :
  foldR (fun acc x => y ← f x; mret (step acc y)) acc l = Ok s →
  ∃ ys, Forall2 (fun x y => f x = Ok y) l ys ∧ s = foldl step acc ys.
Proof.
  revert acc. induction l as [|x l IH]; intros acc; simpl.
  - intros [= <-]. exists []. split; [constructor|done].
  - destruct (f x) as [y| |] eqn:Ey; simpl; [|done..].
    intros (ys & Hys & ->)%IH. exists (y :: ys). split; [by constructor|done].
Qed.

(** ** [getDefinition] *)

Lemma getDefinition_Ok types name d :
  getDefinition types name = Ok d → TypeRI d ∈ types ∧ tn_name (kind_name d) = name.
Proof.
  induction types as [|[d'|n] types IH]; simpl; [done| |].
  - destruct (String.eqb_spec (tn_name (kind_name d')) name) as [Heq|Hne].
    + intros [= <-]. split; [left|done].
    + intros [? ?]%IH. split; [by right|done].
  - intros [? ?]%IH. split; [by right|done].
Qed.

Lemma getDefinition_cases types name :
  (∃ d, getDefinition types name = Ok d) ∨
  getDefinition types name = Throw (DefinitionNotFound name).
Proof.
  induction types as [|[d'|n] types IH]; simpl; [by right| |done].
  destruct (String.eqb (tn_name (kind_name d')) name); [left; eauto|done].
Qed.

(** A name has no definition exactly when no request and no interface of
    the model bears it. *)
Lemma getDefinition_Throw types name :
  getDefinition types name = Throw (DefinitionNotFound name) ↔ undefined_name types name.
Proof.
  unfold undefined_name. induction types as [|[d'|n] types IH]; simpl.
  - split; [intros _ d Hd; by apply elem_of_nil in Hd|done].
  - destruct (String.eqb_spec (tn_name (kind_name d')) name) as [Heq|Hne].
    + split; [done|]. intros H. destruct (H d'); [left|done].
    + rewrite IH. split.
      * intros H d [[= ->]|Hd]%elem_of_cons; auto.
      * intros H d Hd. apply H. by right.
  - rewrite IH. split.
    + intros H d [[=]|Hd]%elem_of_cons; auto.
    + intros H d Hd. apply H. by right.
Qed.

(** ** [getProperties] *)

Lemma push_guard {A} (array items : list A) :
  (if 0 <? length items then push array items else array) = array ++ items.
Proof. destruct items; simpl; [by rewrite app_nil_r|done]. Qed.

Lemma ownProperties_path d : path (ownProperties d) = own_path d.
Proof. destruct d; [apply (push_guard [])|done]. Qed.

Lemma ownProperties_query d : query (ownProperties d) = own_query d.
Proof. destruct d; apply (push_guard []). Qed.

Lemma ownProperties_body d : body_ (ownProperties d) = yesBody ↔ declares_body d.
Proof.
  destruct d as [r|i]; simpl; [|by split].
  destruct (req_body r); split; (done || by inversion 1 || eauto).
Qed.

Lemma inheritProperties_path acc properties :
  path (inheritProperties acc properties) = path acc ++ path properties.
Proof. apply push_guard. Qed.

Lemma inheritProperties_query acc properties :
  query (inheritProperties acc properties) = query acc ++ query properties.
Proof. apply push_guard. Qed.

(** Overwriting the body when it differs is overwriting it. *)
Lemma inheritProperties_body acc properties :
  body_ (inheritProperties acc properties) = body_ properties.
Proof. simpl. by destruct (body_ acc), (body_ properties). Qed.

Lemma foldl_inheritProperties_path acc rs :
  path (foldl inheritProperties acc rs) = path acc ++ mjoin (path <$> rs).
Proof.
  revert acc. induction rs as [|r rs IH]; intros acc; simpl; [by rewrite app_nil_r|].
  by rewrite IH, inheritProperties_path, <- app_assoc.
Qed.

Lemma foldl_inheritProperties_query acc rs :
  query (foldl inheritProperties acc rs) = query acc ++ mjoin (query <$> rs).
Proof.
  revert acc. induction rs as [|r rs IH]; intros acc; simpl; [by rewrite app_nil_r|].
  by rewrite IH, inheritProperties_query, <- app_assoc.
Qed.

Lemma foldl_inheritProperties_body acc rs :
  body_ (foldl inheritProperties acc rs) = default (body_ acc) (last (body_ <$> rs)).
Proof.
  revert acc. induction rs as [|r rs IH]; intros acc; [done|].
  simpl foldl. rewrite IH, inheritProperties_body, fmap_cons, last_cons.
  by destruct (last _).
Qed.

(** The equation of [getProperties] with the two loops of the source read
    as relations: the inherited names resolve to [ds], the definitions
    [ds] flatten to [rs], and the loop folds [rs] into the properties of
    the definition itself. *)
Lemma getProperties_Ok types fuel d r :
  getProperties types (S fuel) d = Ok r ↔
  ∃ ds rs,
    Forall2 (fun name d' => getDefinition types name = Ok d') (inherit_names d) ds ∧
    Forall2 (fun d' r' => getProperties types fuel d' = Ok r') ds rs ∧
    r = foldl inheritProperties (ownProperties d) rs.
Proof.
  simpl. unfold inherit_names. destruct (inherits d) as [l|]; split.
  - unfold mbind at 1, Result_bind at 1.
    destruct (mapR _ l) as [ds| |] eqn:Hds; [|done..].
    intros (rs & Hrs & ->)%foldR_Ok_inv. exists ds, rs. split_and!; [|done..].
    apply Forall2_fmap_l. by apply mapR_Ok in Hds.
  - intros (ds & rs & Hds%Forall2_fmap_l & Hrs & ->).
    apply mapR_Ok in Hds. rewrite Hds. simpl. by apply foldR_Ok.
  - intros [= <-]. exists [], []. split_and!; (constructor || done).
  - intros (ds & rs & Hds & Hrs & ->). inversion Hds; subst. by inversion Hrs; subst.
Qed.

(** A result does not depend on the fuel, once there is enough of it. *)
Lemma getProperties_mono types fuel fuel' d r :
  fuel ≤ fuel' → getProperties types fuel d = Ok r → getProperties types fuel' d = Ok r.
Proof.
  revert fuel' d r. induction fuel as [|fuel IH]; intros fuel' d r Hle; [done|].
  destruct fuel' as [|fuel']; [lia|].
  rewrite !getProperties_Ok. intros (ds & rs & Hds & Hrs & ->).
  exists ds, rs. split_and!; [done| |done].
  eapply Forall2_impl; [done|]. intros d' r'. apply IH. lia.
Qed.

Lemma mapR_fmap {A B C} (f : B -> Result C) (g : A -> B) l :
  mapR f (g <$> l) = mapR (fun x => f (g x)) l.
Proof. induction l as [|x l IH]; csimpl; [done|]. by rewrite IH. Qed.

(** How a [map] or a loop fails: at one of the elements. *)
Lemma mapR_failure {A B} (f : A -> Result B) l :
  match mapR f l with
  | Ok _ => True
  | Throw e => ∃ x, x ∈ l ∧ f x = Throw e
  | OutOfFuel => ∃ x, x ∈ l ∧ f x = OutOfFuel
  end.
Proof.
  induction l as [|x l IH]; simpl; [done|].
  destruct (f x) as [y|e|] eqn:Ex; simpl.
  - destruct (mapR f l) as [ys|e|]; simpl; [done|..];
      destruct IH as (x' & ? & ?); exists x'; split; (by right || done).
  - exists x. split; [left|done].
  - exists x. split; [left|done].
Qed.

Lemma foldR_failure {A B S} (f : A -> Result B) (step : S -> B -> S) l acc :
  match foldR (fun acc x => y ← f x; mret (step acc y)) acc l with
  | Ok _ => True
  | Throw e => ∃ x, x ∈ l ∧ f x = Throw e
  | OutOfFuel => ∃ x, x ∈ l ∧ f x = OutOfFuel
  end.
Proof.
  revert acc. induction l as [|x l IH]; intros acc; simpl; [done|].
  destruct (f x) as [y|e|] eqn:Ex; simpl.
  - specialize (IH (step acc y)). destruct (foldR _ _ l) as [s|e|]; [done|..];
      destruct IH as (x' & ? & ?); exists x'; split; (by right || done).
  - exists x. split; [left|done].
  - exists x. split; [left|done].
Qed.

(** [getProperties] as the source has it: look all the inherited names up,
    then loop over the definitions found. *)
Lemma getProperties_unfold types fuel d :
  getProperties types (S fuel) d =
  ds ← mapR (getDefinition types) (inherit_names d);
  foldR (fun acc inherit =>
           properties ← getProperties types fuel inherit;
           mret (inheritProperties acc properties))
        (ownProperties d) ds.
Proof.
  simpl. unfold inherit_names. destruct (inherits d) as [l|]; [|done].
  by rewrite mapR_fmap.
Qed.

Lemma Forall2_resolve_edge types d ds d' :
  Forall2 (fun name d' => getDefinition types name = Ok d') (inherit_names d) ds →
  d' ∈ ds → edge types d d'.
Proof.
  intros Hds (i & Hi)%list_elem_of_lookup.
  destruct (Forall2_lookup_r _ _ _ _ _ Hds Hi) as (name & Hname & Hget).
  exists name. split; [|done]. apply list_elem_of_lookup. eauto.
Qed.

Lemma edge_Forall2_resolve types d ds d' :
  Forall2 (fun name d' => getDefinition types name = Ok d') (inherit_names d) ds →
  edge types d d' → d' ∈ ds.
Proof.
  intros Hds (name & (i & Hi)%list_elem_of_lookup & Hget).
  destruct (Forall2_lookup_l _ _ _ _ _ Hds Hi) as (d'' & Hd'' & Hget').
  rewrite Hget in Hget'. injection Hget' as <-.
  apply list_elem_of_lookup. eauto.
Qed.

(** The only exception of [getProperties] is the one of [getDefinition],
    thrown for a name that the definition or one of its ancestors inherits
    from and that has no definition. *)
Lemma getProperties_Throw types fuel d e :
  getProperties types fuel d = Throw e →
  ∃ a name, ancestor types d a ∧ name ∈ inherit_names a ∧
            getDefinition types name = Throw (DefinitionNotFound name) ∧
            e = DefinitionNotFound name.
Proof.
  revert d. induction fuel as [|fuel IH]; intros d; [done|].
  rewrite getProperties_unfold.
  pose proof (mapR_failure (getDefinition types) (inherit_names d)) as Hmap.
  destruct (mapR _ (inherit_names d)) as [ds|e'|] eqn:Hds; simpl.
  - intros Hfold.
    pose proof (foldR_failure (getProperties types fuel) inheritProperties ds
                  (ownProperties d)) as Hf.
    rewrite Hfold in Hf. destruct Hf as (d' & Hd' & Hthrow).
    destruct (IH _ Hthrow) as (a & name & Ha & ?). exists a, name. split; [|done].
    eapply rtc_l; [|done]. eapply Forall2_resolve_edge; [|done]. by apply mapR_Ok.
  - intros [= ->]. destruct Hmap as (name & Hname & Hget).
    exists d, name. split; [done|]. split; [done|].
    destruct (getDefinition_cases types name) as [[d' Hd']|Hd']; [congruence|].
    split; [done|congruence].
  - done.
Qed.

(** A definition that flattens has ancestors that flatten, with the same
    fuel, and none of them inherits from a name without a definition. *)
Lemma getProperties_Ok_ancestor types fuel d r a :
  getProperties types fuel d = Ok r → ancestor types d a →
  ∃ ra, getProperties types fuel a = Ok ra.
Proof.
  intros Hd Ha. revert r Hd. induction Ha as [d|d d' a Hedge _ IH]; intros r Hd; [eauto|].
  destruct fuel as [|fuel]; [done|].
  apply getProperties_Ok in Hd as (ds & rs & Hds & Hrs & _).
  pose proof (edge_Forall2_resolve _ _ _ _ Hds Hedge) as (i & Hi)%list_elem_of_lookup.
  destruct (Forall2_lookup_l _ _ _ _ _ Hrs Hi) as (r' & _ & Hr').
  eapply IH, getProperties_mono; [|done]. lia.
Qed.

Lemma getProperties_Ok_not_dangling types fuel d r a :
  getProperties types fuel d = Ok r → ancestor types d a → ¬ dangling types a.
Proof.
  intros Hd Ha (name & (i & Hi)%list_elem_of_lookup & Hget%getDefinition_Throw).
  destruct (getProperties_Ok_ancestor _ _ _ _ _ Hd Ha) as (ra & Hra).
  destruct fuel as [|fuel]; [done|].
  apply getProperties_Ok in Hra as (ds & _ & Hds & _).
  destruct (Forall2_lookup_l _ _ _ _ _ Hds Hi) as (d' & _ & Hd'). congruence.
Qed.

(** ** Paths of the inheritance graph and fuel *)

(** When the fuel runs out, the calls on the stack are a path of the
    inheritance graph, as long as the fuel. *)
Lemma getProperties_OutOfFuel types fuel d :
  getProperties types fuel d = OutOfFuel →
  ∃ l, chain types d l ∧ length l = fuel.
Proof.
  revert d. induction fuel as [|fuel IH]; intros d; [by exists []|].
  rewrite getProperties_unfold.
  pose proof (mapR_failure (getDefinition types) (inherit_names d)) as Hmap.
  destruct (mapR _ (inherit_names d)) as [ds|e'|] eqn:Hds; simpl.
  - intros Hfold.
    pose proof (foldR_failure (getProperties types fuel) inheritProperties ds
                  (ownProperties d)) as Hf.
    rewrite Hfold in Hf. destruct Hf as (d' & Hd' & Hout).
    destruct (IH _ Hout) as (l & Hl & <-). exists (d' :: l). split; [|done].
    split; [|done]. eapply Forall2_resolve_edge; [|done]. by apply mapR_Ok.
  - done.
  - destruct Hmap as (name & _ & Hget).
    destruct (getDefinition_cases types name) as [[d' Hd']|Hd']; congruence.
Qed.

Lemma chain_tc types d l x : chain types d l → x ∈ l → tc (edge types) d x.
Proof.
  revert d. induction l as [|d' l IH]; intros d; [by intros _ ?%elem_of_nil|].
  intros [Hedge Hl] [->|Hx]%elem_of_cons; [by apply tc_once|].
  eapply tc_l; [done|]. by apply IH.
Qed.

Lemma chain_types types d l x : chain types d l → x ∈ l → TypeRI x ∈ types.
Proof.
  revert d. induction l as [|d' l IH]; intros d; [by intros _ ?%elem_of_nil|].
  intros [(name & _ & Hget) Hl] [->|Hx]%elem_of_cons; [|by eapply IH].
  by apply getDefinition_Ok in Hget as [? _].
Qed.

(** In a graph without a cycle a path visits no definition twice, so it
    is no longer than the list of the types. *)
Lemma chain_NoDup types d l : acyclic types → chain types d l → NoDup l.
Proof.
  intros Hacyclic. revert d. induction l as [|d' l IH]; intros d; [constructor|].
  intros [_ Hl]. constructor; [|by eapply IH].
  intros Hin. apply (Hacyclic d'). by eapply chain_tc.
Qed.

Lemma chain_length types d l : acyclic types → chain types d l → length l ≤ length types.
Proof.
  intros Hacyclic Hl. rewrite <- (length_fmap TypeRI l).
  apply submseteq_length, NoDup_submseteq.
  - apply NoDup_fmap; [by intros ?? [=]|by eapply chain_NoDup].
  - intros t (x & -> & Hx)%list_elem_of_fmap. by eapply chain_types.
Qed.

Lemma Forall2_middle {A B C} (P : A -> B -> Prop) (Q : B -> C -> Prop) l k :
  Forall2 (fun x z => ∃ y, P x y ∧ Q y z) l k → ∃ m, Forall2 P l m ∧ Forall2 Q m k.
Proof.
  induction 1 as [|x z l k (y & ? & ?) _ (m & ? & ?)];
    [exists []|exists (y :: m)]; split; by constructor.
Qed.

(** A result other than "out of fuel" is the result with any larger fuel. *)
Lemma foldR_stable {A B S} (f g : A -> Result B) (step : S -> B -> S) l acc :
  (∀ x, f x ≠ OutOfFuel → g x = f x) →
  foldR (fun acc x => y ← f x; mret (step acc y)) acc l ≠ OutOfFuel →
  foldR (fun acc x => y ← g x; mret (step acc y)) acc l =
  foldR (fun acc x => y ← f x; mret (step acc y)) acc l.
Proof.
  intros Hfg. revert acc. induction l as [|x l IH]; intros acc; simpl; [done|].
  destruct (f x) as [y|e|] eqn:Ex; simpl; [| |done].
  - rewrite Hfg, Ex by congruence. simpl. apply IH.
  - by rewrite Hfg, Ex by congruence.
Qed.

Lemma getProperties_stable types fuel fuel' d :
  fuel ≤ fuel' → getProperties types fuel d ≠ OutOfFuel →
  getProperties types fuel' d = getProperties types fuel d.
Proof.
  revert fuel' d. induction fuel as [|fuel IH]; intros fuel' d Hle; [done|].
  destruct fuel' as [|fuel']; [lia|].
  rewrite !getProperties_unfold.
  destruct (mapR _ (inherit_names d)) as [ds|e'|]; simpl; [|done..].
  apply foldR_stable. intros d'. apply IH. lia.
Qed.

Lemma ranked_edge types rank d d' :
  ranked types rank = true → TypeRI d ∈ types → edge types d d' →
  rank (tn_name (kind_name d')) < rank (tn_name (kind_name d)).
Proof.
  unfold ranked. rewrite forallb_forall. intros Hrank Hd (name & Hname & Hget).
  apply list_elem_of_In, Hrank in Hd. rewrite forallb_forall in Hd.
  apply list_elem_of_In, Hd, Nat.ltb_lt in Hname.
  by apply getDefinition_Ok in Hget as [_ ->].
Qed.

Lemma edge_types types d d' : edge types d d' → TypeRI d' ∈ types.
Proof. intros (name & _ & Hget). by apply getDefinition_Ok in Hget as [? _]. Qed.

Lemma ranked_acyclic types rank : ranked types rank = true → acyclic types.
Proof.
  intros Hrank.
  assert (∀ d d', tc (edge types) d d' → TypeRI d ∈ types →
                  TypeRI d' ∈ types ∧
                  rank (tn_name (kind_name d')) < rank (tn_name (kind_name d))) as Htc.
  { induction 1 as [d d' Hedge|d d' d'' Hedge _ IH]; intros Hd.
    - split; [by eapply edge_types|by eapply ranked_edge].
    - pose proof (ranked_edge _ _ _ _ Hrank Hd Hedge).
      destruct IH as [? ?]; [by eapply edge_types|]. split; [done|lia]. }
  intros d Hcycle.
  assert (∀ d d', tc (edge types) d d' → TypeRI d' ∈ types) as Hin.
  { induction 1; [by eapply edge_types|done]. }
  pose proof (Hin _ _ Hcycle) as Hd.
  destruct (Htc _ _ Hcycle Hd). lia.
Qed.

(** Without a cycle and without a name that has no definition, every
    definition flattens. *)
Lemma getProperties_total types fuel d :
  acyclic types → length types < fuel →
  (∀ a, ancestor types d a → ¬ dangling types a) →
  ∃ r, getProperties types fuel d = Ok r.
Proof.
  intros Hacyclic Hfuel Hclosed.
  destruct (getProperties types fuel d) as [r|e|] eqn:Hd; [eauto|..].
  - apply getProperties_Throw in Hd as (a & name & Ha & Hname & Hget & _).
    destruct (Hclosed a Ha). exists name. by rewrite <- getDefinition_Throw.
  - apply getProperties_OutOfFuel in Hd as (l & Hl & <-).
    pose proof (chain_length _ _ _ Hacyclic Hl). lia.
Qed.

(** ** The flattened properties *)

(** The flattened path and query properties are those that the definition
    and its ancestors declare. *)
Lemma getProperties_path types fuel d r p :
  getProperties types fuel d = Ok r →
  p ∈ path r ↔ ∃ a, ancestor types d a ∧ p ∈ own_path a.
Proof.
  revert d r. induction fuel as [|fuel IH]; intros d r; [done|].
  intros (ds & rs & Hds & Hrs & ->)%getProperties_Ok.
  rewrite foldl_inheritProperties_path, ownProperties_path, elem_of_app. split.
  - intros [Hp|(ps & Hp & (r' & -> & (i & Hi)%list_elem_of_lookup)%list_elem_of_fmap)%list_elem_of_join].
    { exists d. by split. }
    destruct (Forall2_lookup_r _ _ _ _ _ Hrs Hi) as (d' & Hd' & Hr').
    apply (IH _ _ Hr') in Hp as (a & Ha & Hp). exists a. split; [|done].
    eapply rtc_l; [|done]. eapply Forall2_resolve_edge; [done|].
    apply list_elem_of_lookup; eauto.
  - intros (a & Ha & Hp). apply rtc_inv in Ha as [->|(d' & Hedge & Ha)]; [by left|].
    right. pose proof (edge_Forall2_resolve _ _ _ _ Hds Hedge) as (i & Hi)%list_elem_of_lookup.
    destruct (Forall2_lookup_l _ _ _ _ _ Hrs Hi) as (r' & Hri & Hr').
    apply list_elem_of_join. exists (path r'). split.
    + apply (IH _ _ Hr'). eauto.
    + apply list_elem_of_fmap. exists r'. split; [done|]. apply list_elem_of_lookup; eauto.
Qed.

Lemma getProperties_query types fuel d r p :
  getProperties types fuel d = Ok r →
  p ∈ query r ↔ ∃ a, ancestor types d a ∧ p ∈ own_query a.
Proof.
  revert d r. induction fuel as [|fuel IH]; intros d r; [done|].
  intros (ds & rs & Hds & Hrs & ->)%getProperties_Ok.
  rewrite foldl_inheritProperties_query, ownProperties_query, elem_of_app. split.
  - intros [Hp|(ps & Hp & (r' & -> & (i & Hi)%list_elem_of_lookup)%list_elem_of_fmap)%list_elem_of_join].
    { exists d. by split. }
    destruct (Forall2_lookup_r _ _ _ _ _ Hrs Hi) as (d' & Hd' & Hr').
    apply (IH _ _ Hr') in Hp as (a & Ha & Hp). exists a. split; [|done].
    eapply rtc_l; [|done]. eapply Forall2_resolve_edge; [done|].
    apply list_elem_of_lookup; eauto.
  - intros (a & Ha & Hp). apply rtc_inv in Ha as [->|(d' & Hedge & Ha)]; [by left|].
    right. pose proof (edge_Forall2_resolve _ _ _ _ Hds Hedge) as (i & Hi)%list_elem_of_lookup.
    destruct (Forall2_lookup_l _ _ _ _ _ Hrs Hi) as (r' & Hri & Hr').
    apply list_elem_of_join. exists (query r'). split.
    + apply (IH _ _ Hr'). eauto.
    + apply list_elem_of_fmap. exists r'. split; [done|]. apply list_elem_of_lookup; eauto.
Qed.

(** C1, as the code has it: [MultiGetRequest] declares a body and inherits
    from [RequestBase], which declares none; the loop over the inherited
    definitions overwrites the body of the request with the one of
    [RequestBase], so the flattened request has no body, whatever the
    fuel; and the endpoint, whose json spec requires a body, is told that
    the definition should include a body. *)
Theorem getProperties_body_overwritten :
  declares_body MultiGetRequest ∧
  (∀ n, ∃ r, getProperties example_types (2 + n) MultiGetRequest = Ok r ∧
             body_ r = noBody) ∧
  ∃ ws, validateEndpoint example_types example_jsonSpec 2 mget [] = (ws, Ok tt) ∧
        ShouldIncludeBody "MultiGetRequest" ∈ ws.
Proof.
  split_and!.
  - by eexists.
  - intros n.
    assert (∃ r, getProperties example_types 2 MultiGetRequest = Ok r ∧ body_ r = noBody)
      as (r & Hr & Hbody) by (eexists; split; reflexivity).
    exists r. split; [|done]. eapply getProperties_mono; [|done]. lia.
  - eexists. split; [reflexivity|]. set_solver.
Qed.

Lemma last_inherit_functional types d d1 d2 :
  last_inherit types d d1 → last_inherit types d d2 → d1 = d2.
Proof.
  intros (front1 & name1 & Hnames1 & Hd1) (front2 & name2 & Hnames2 & Hd2).
  rewrite Hnames1 in Hnames2. apply app_inj_tail in Hnames2 as [_ <-]. congruence.
Qed.

Lemma body_source_unique types d t t' :
  body_source types d t → body_source types d t' → t' = t.
Proof.
  intros [Ht Hnil]. revert t'. induction Ht as [t|d d1 t Hstep _ IH]; intros t' [Ht' Hnil'].
  - apply rtc_inv in Ht' as [<-|(d2 & (front & name & Hnames & _) & _)]; [done|].
    rewrite Hnil in Hnames. by destruct front.
  - apply rtc_inv in Ht' as [<-|(d2 & Hstep' & Ht')].
    + destruct Hstep as (front & name & Hnames & _).
      rewrite Hnil' in Hnames. by destruct front.
    + rewrite <- (last_inherit_functional _ _ _ _ Hstep Hstep') in Ht'. by apply IH.
Qed.

Lemma foldl_inheritProperties_overwrite acc rs :
  body_ (foldl inheritProperties acc rs) = foldl overwrite (body_ acc) rs.
Proof.
  revert acc. induction rs as [|r rs IH]; intros acc; [done|].
  simpl foldl. by rewrite IH.
Qed.

(** The flattened body is the body of one definition: the one reached by
    going to the last inherited definition until there is none. *)
Lemma getProperties_body_source types fuel d r :
  getProperties types fuel d = Ok r →
  ∃ t, body_source types d t ∧ (body_ r = yesBody ↔ declares_body t).
Proof.
  revert d r. induction fuel as [|fuel IH]; intros d r; [done|].
  intros (ds & rs & Hds & Hrs & ->)%getProperties_Ok.
  rewrite foldl_inheritProperties_body, fmap_last.
  destruct (last rs) as [rl|] eqn:Hlast.
  - apply last_Some in Hlast as [rs' ->].
    apply Forall2_app_inv_r in Hrs as (ds' & dl_ & Hrs' & Hrl & ->).
    apply Forall2_cons_inv_r in Hrl as (dl & ? & Hdl & ->%Forall2_nil_inv_r & ->).
    apply Forall2_app_inv_r in Hds as (front & name_ & Hfront & Hname & Hnames).
    apply Forall2_cons_inv_r in Hname as (name & ? & Hget & ->%Forall2_nil_inv_r & ->).
    destruct (IH _ _ Hdl) as (t & [Ht Hnil] & Hbody). exists t. split; [|done].
    split; [|done]. eapply rtc_l; [|done]. by exists front, name.
  - apply last_None in Hlast as ->. apply Forall2_nil_inv_r in Hrs as ->.
    apply Forall2_nil_inv_r in Hds. exists d. split; [by split|].
    simpl. apply ownProperties_body.
Qed.

(** C2: in a model without a cycle where the names inherited by a
    definition and by its ancestors have definitions, the definition
    flattens, and so do the definitions it inherits from, to [rs] in
    declaration order.  The flattened body is obtained by overwriting the
    body of the definition itself with the body of each of [rs] in turn
    when the two differ; with a non-empty [inherits] it is the flattened
    body of the last inherited definition, whatever the definition itself
    and the definitions inherited before it declare; with no [inherits] it
    is the body of the definition.  So there is a body exactly when the
    one definition reached by going to the last inherited definition,
    again and again, declares a body. *)
Theorem getProperties_body_last types fuel d :
  acyclic types → length types < fuel →
  (∀ a, ancestor types d a → ¬ dangling types a) →
  ∃ r rs,
    getProperties types fuel d = Ok r ∧
    Forall2 (fun name r' => ∃ d', getDefinition types name = Ok d' ∧
                                   getProperties types fuel d' = Ok r')
            (inherit_names d) rs ∧
    body_ r = foldl overwrite (body_ (ownProperties d)) rs ∧
    (∀ rl, last rs = Some rl → body_ r = body_ rl) ∧
    (inherit_names d = [] → (body_ r = yesBody ↔ declares_body d)) ∧
    ∃ t, body_source types d t ∧
         (body_ r = yesBody ↔ declares_body t) ∧
         (∀ t', body_source types d t' → t' = t).
Proof.
  intros Hacyclic Hfuel Hclosed.
  destruct (getProperties_total types fuel d Hacyclic Hfuel Hclosed) as (r & Hr).
  destruct (getProperties_body_source _ _ _ _ Hr) as (t & Ht & Hbody).
  destruct fuel as [|fuel']; [done|].
  pose proof Hr as (ds & rs & Hds & Hrs & Heq)%getProperties_Ok.
  exists r, rs. split_and!; [done| | | | |].
  - clear -Hds Hrs. revert rs Hrs.
    induction Hds as [|name d' names ds Hd' _ IH]; intros rs Hrs.
    + inversion Hrs. constructor.
    + inversion Hrs as [|? r' ? rs' Hr' Hrs']; subst. constructor; [|by apply IH].
      exists d'. split; [done|]. eapply getProperties_mono; [|done]. lia.
  - rewrite Heq. apply foldl_inheritProperties_overwrite.
  - intros rl Hlast. by rewrite Heq, foldl_inheritProperties_body, fmap_last, Hlast.
  - intros Hnil. rewrite Hnil in Hds. apply Forall2_nil_inv_l in Hds as ->.
    apply Forall2_nil_inv_l in Hrs as ->. rewrite Heq. simpl. apply ownProperties_body.
  - exists t. split_and!; [done..|]. intros t' Ht'. by eapply body_source_unique.
Qed.

Lemma body_types_closed d r a :
  getProperties body_types 6 d = Ok r → ancestor body_types d a → ¬ dangling body_types a.
Proof. apply getProperties_Ok_not_dangling. Qed.

Lemma getProperties_body_last_witness :
  (∃ r, getProperties body_types 6 Deep = Ok r ∧ body_ r = yesBody) ∧
  (∃ r, getProperties body_types 6 BodyLast = Ok r ∧ body_ r = yesBody) ∧
  (∃ r, getProperties body_types 6 BodyFirst = Ok r ∧ body_ r = noBody).
Proof.
  assert (acyclic body_types) as Hacyclic
    by (apply (ranked_acyclic body_types body_rank); reflexivity).
  assert (length body_types < 6) as Hfuel by (simpl; lia).
  assert (last_inherit body_types Deep BodyLast) as Hdeep
    by (exists ["BodyFirst"; "Plain"]%string, "BodyLast"%string; split; reflexivity).
  assert (last_inherit body_types BodyLast HasBody) as Hlast
    by (exists ["Plain"]%string, "HasBody"%string; split; reflexivity).
  assert (last_inherit body_types BodyFirst Plain) as Hfirst
    by (exists ["HasBody"]%string, "Plain"%string; split; reflexivity).
  split_and!.
  - destruct (getProperties_body_last body_types 6 Deep Hacyclic Hfuel)
      as (r & rs & Hr & _ & _ & _ & _ & t & Ht & Hbody & Hunique).
    { intros a. eapply body_types_closed. reflexivity. }
    exists r. split; [exact Hr|]. apply Hbody.
    rewrite <- (Hunique HasBody); [by eexists|].
    split; [|reflexivity]. eapply rtc_l; [exact Hdeep|]. by apply rtc_once.
  - destruct (getProperties_body_last body_types 6 BodyLast Hacyclic Hfuel)
      as (r & rs & Hr & _ & _ & _ & _ & t & Ht & Hbody & Hunique).
    { intros a. eapply body_types_closed. reflexivity. }
    exists r. split; [exact Hr|]. apply Hbody.
    rewrite <- (Hunique HasBody); [by eexists|].
    split; [|reflexivity]. by apply rtc_once.
  - destruct (getProperties_body_last body_types 6 BodyFirst Hacyclic Hfuel)
      as (r & rs & Hr & _ & _ & _ & _ & t & Ht & Hbody & Hunique).
    { intros a. eapply body_types_closed. reflexivity. }
    exists r. split; [exact Hr|].
    destruct (body_ r) eqn:Hb; [reflexivity|].
    pose proof (proj1 Hbody eq_refl) as Hdeclares.
    rewrite <- (Hunique Plain) in Hdeclares.
    + by destruct Hdeclares.
    + split; [|reflexivity]. by apply rtc_once.
Defined.

(** C3: in a model without a cycle where the names inherited by [R] and
    by its ancestors have definitions, if [R] inherits from the requests
    [A] and [B], [A] declares the path property [id] and [B] the path
    property [index], then [R] flattens to properties whose path has both
    [id] and [index]; the flattened path (query) properties are exactly
    the path (query) properties declared by [R] and its transitive
    ancestors. *)
Theorem getProperties_inheritance_union types fuel R nameA nameB A B id index :
  acyclic types → length types < fuel →
  (∀ a, ancestor types R a → ¬ dangling types a) →
  nameA ∈ inherit_names R → getDefinition types nameA = Ok A →
  nameB ∈ inherit_names R → getDefinition types nameB = Ok B →
  id ∈ names (own_path A) → index ∈ names (own_path B) →
  ∃ r, getProperties types fuel R = Ok r ∧
       id ∈ names (path r) ∧ index ∈ names (path r) ∧
       (∀ p, p ∈ path r ↔ ∃ a, ancestor types R a ∧ p ∈ own_path a) ∧
       (∀ p, p ∈ query r ↔ ∃ a, ancestor types R a ∧ p ∈ own_query a).
Proof.
  intros Hacyclic Hfuel Hclosed HA HgetA HB HgetB Hid Hindex.
  destruct (getProperties_total types fuel R) as (r & Hr); [done..|].
  assert (∀ name X n, name ∈ inherit_names R → getDefinition types name = Ok X →
                      n ∈ names (own_path X) → n ∈ names (path r)) as Hin.
  { intros name X n Hname Hget (p & -> & Hp)%list_elem_of_fmap.
    apply list_elem_of_fmap. exists p. split; [done|].
    apply (getProperties_path _ _ _ _ _ Hr). exists X. split; [|done].
    apply rtc_once. by exists name. }
  exists r. split_and!;
    [done|exact (Hin _ _ _ HA HgetA Hid)|exact (Hin _ _ _ HB HgetB Hindex)| |].
  - intros p. by eapply getProperties_path.
  - intros p. by eapply getProperties_query.
Qed.

Lemma getProperties_inheritance_union_witness :
  ∃ r, getProperties union_types 4 GetRequest = Ok r ∧
       "id"%string ∈ names (path r) ∧ "index"%string ∈ names (path r) ∧
       (∀ p, p ∈ path r ↔ ∃ a, ancestor union_types GetRequest a ∧ p ∈ own_path a) ∧
       (∀ p, p ∈ query r ↔ ∃ a, ancestor union_types GetRequest a ∧ p ∈ own_query a).
Proof.
  apply (getProperties_inheritance_union union_types 4 GetRequest
           "WithId" "WithIndex" WithId WithIndex "id" "index").
  - apply (ranked_acyclic union_types union_rank). reflexivity.
  - simpl. lia.
  - intros a.
    apply (getProperties_Ok_not_dangling union_types 4 GetRequest
             {| path := [property "id"; property "index"];
                query := [property "routing"]; body_ := noBody |} a).
    reflexivity.
  - left.
  - reflexivity.
  - right. left.
  - reflexivity.
  - left.
  - left.
Defined.

(** ** Termination *)

(** A definition on a cycle of the inheritance graph never flattens:
    there is no guard against cycles. *)
Lemma getProperties_tc_fuel types fuel d d' r :
  tc (edge types) d d' → getProperties types fuel d = Ok r →
  ∃ fuel' r', fuel' < fuel ∧ getProperties types fuel' d' = Ok r'.
Proof.
  intros Htc. revert fuel r. induction Htc as [d d' Hedge|d d' d'' Hedge _ IH];
    intros [|fuel] r Hd; try done.
  - apply getProperties_Ok in Hd as (ds & rs & Hds & Hrs & _).
    pose proof (edge_Forall2_resolve _ _ _ _ Hds Hedge) as (i & Hi)%list_elem_of_lookup.
    destruct (Forall2_lookup_l _ _ _ _ _ Hrs Hi) as (r' & _ & Hr').
    exists fuel, r'. split; [lia|done].
  - apply getProperties_Ok in Hd as (ds & rs & Hds & Hrs & _).
    pose proof (edge_Forall2_resolve _ _ _ _ Hds Hedge) as (i & Hi)%list_elem_of_lookup.
    destruct (Forall2_lookup_l _ _ _ _ _ Hrs Hi) as (r' & _ & Hr').
    destruct (IH _ _ Hr') as (fuel' & r'' & ? & ?). exists fuel', r''. split; [lia|done].
Qed.

Lemma getProperties_cycle types fuel d r :
  tc (edge types) d d → getProperties types fuel d ≠ Ok r.
Proof.
  intros Hcycle. revert r. induction (lt_wf fuel) as [fuel _ IH]. intros r Hd.
  destruct (getProperties_tc_fuel _ _ _ _ _ Hcycle Hd) as (fuel' & r' & Hlt & Hr').
  by eapply IH.
Qed.

Lemma getProperties_Loop fuel : getProperties [TypeRI Loop] fuel Loop = OutOfFuel.
Proof.
  induction fuel as [|fuel IH]; [done|].
  rewrite getProperties_unfold. simpl. by rewrite IH.
Qed.

(** C9: when the inheritance graph has no cycle, [getProperties] ends on
    every definition: it has one result, a value or an exception, for
    every fuel above the number of types, and already for every fuel above
    the length of the longest path of the graph that starts at the
    definition; such a path is no longer than the list of the types. *)
Theorem getProperties_terminates types d :
  acyclic types →
  ∃ result,
    result ≠ OutOfFuel ∧
    (∀ l, chain types d l → length l ≤ length types) ∧
    (∀ fuel, length types < fuel → getProperties types fuel d = result) ∧
    (∀ depth, (∀ l, chain types d l → length l ≤ depth) →
              ∀ fuel, depth < fuel → getProperties types fuel d = result).
Proof.
  intros Hacyclic.
  assert (∀ depth, (∀ l, chain types d l → length l ≤ depth) →
                   ∀ fuel, depth < fuel → getProperties types fuel d ≠ OutOfFuel) as Hends.
  { intros depth Hdepth fuel Hfuel (l & Hl & <-)%getProperties_OutOfFuel.
    specialize (Hdepth l Hl). lia. }
  pose proof (fun l => chain_length types d l Hacyclic) as Hlen.
  assert (∀ depth, (∀ l, chain types d l → length l ≤ depth) →
                   ∀ fuel, depth < fuel →
                   getProperties types fuel d =
                   getProperties types (S (length types)) d) as Hsame.
  { intros depth Hdepth fuel Hfuel.
    destruct (decide (fuel ≤ S (length types))).
    - symmetry. apply getProperties_stable; [done|]. by eapply Hends.
    - apply getProperties_stable; [lia|]. eapply Hends; [exact Hlen|lia]. }
  exists (getProperties types (S (length types)) d). split_and!.
  - eapply Hends; [exact Hlen|lia].
  - done.
  - intros fuel Hfuel. by eapply Hsame.
  - done.
Qed.

Lemma getProperties_terminates_witness :
  ∃ result,
    result ≠ OutOfFuel ∧
    (∀ l, chain union_types GetRequest l → length l ≤ length union_types) ∧
    (∀ fuel, length union_types < fuel →
             getProperties union_types fuel GetRequest = result) ∧
    (∀ depth, (∀ l, chain union_types GetRequest l → length l ≤ depth) →
              ∀ fuel, depth < fuel → getProperties union_types fuel GetRequest = result).
Proof.
  apply (getProperties_terminates union_types GetRequest).
  apply (ranked_acyclic union_types union_rank). reflexivity.
Defined.

(** ** The warnings of an endpoint *)

Lemma for_of_warn present (w : string -> Warning) l log :
  for_of l (fun name => if negb (includes present name) then console_warn (w name)
                        else ret tt) log
  = (log ++ (w <$> missing_from present l), Ok tt).
Proof.
  unfold missing_from. revert log. induction l as [|name l IH]; intros log; simpl.
  - by rewrite app_nil_r.
  - unfold bind. destruct (includes present name) eqn:E; simpl.
    + apply includes_true in E. rewrite IH, filter_cons_False by naive_solver. done.
    + apply includes_false in E. rewrite IH, filter_cons_True by done.
      by rewrite <- app_assoc.
Qed.

Lemma bind_Ok {A B} (m : Console A) (f : A -> Console B) log log' a :
  m log = (log', Ok a) → bind m f log = f a log'.
Proof. unfold bind. by intros ->. Qed.

(** The comparison always completes, and writes the path warnings, the
    query warnings and the body warnings, in this order. *)
Lemma reconcile_eq request r spec log :
  reconcile request r spec log = (log ++ endpointWarnings (tn_name request) r spec, Ok tt).
Proof.
  unfold reconcile, endpointWarnings, pathWarnings, queryWarnings, bodyWarnings.
  erewrite bind_Ok by apply for_of_warn.
  erewrite bind_Ok by apply for_of_warn.
  erewrite (bind_Ok _ _ _
              (_ ++ match params spec with
                    | Some params =>
                        (QueryNotInSpec (tn_name request) <$>
                           missing_from (Object_keys params) (names (query r))) ++
                        (QueryNotInModel (tn_name request) <$>
                           missing_from (names (query r)) (Object_keys params))
                    | None => []
                    end) tt).
  2:{ destruct (params spec) as [ps|].
      - erewrite bind_Ok by apply for_of_warn. rewrite for_of_warn.
        by rewrite <- app_assoc.
      - unfold ret. by rewrite app_nil_r. }
  rewrite <- !app_assoc.
  destruct (body_ r), (body spec) as [b|]; simpl; unfold bind, ret, console_warn; simpl;
    try destruct (bool_decide (required b = Some true)); simpl;
    rewrite <- ?app_assoc, ?app_nil_r; reflexivity.
Qed.

(** The body of the loop over the endpoints, case by case. *)
Lemma validateEndpoint_eq types jsonSpec fuel endpoint log :
  validateEndpoint types jsonSpec fuel endpoint log =
  match ep_request endpoint with
  | None => (log, Ok tt)
  | Some request =>
      match getDefinition types (tn_name request) with
      | Ok d =>
          match getProperties types fuel d with
          | Ok r =>
              match jsonSpec !! ep_name endpoint with
              | Some spec => (log ++ endpointWarnings (tn_name request) r spec, Ok tt)
              | None => (log, Throw (SpecNotFound (ep_name endpoint)))
              end
          | Throw e => (log, Throw e)
          | OutOfFuel => (log, OutOfFuel)
          end
      | Throw e => (log, Throw e)
      | OutOfFuel => (log, OutOfFuel)
      end
  end.
Proof.
  unfold validateEndpoint. destruct (ep_request endpoint) as [request|]; [|done].
  unfold bind at 1, lift at 1. destruct (getDefinition _ _) as [d|e|]; [|done..].
  unfold bind at 1, lift at 1. destruct (getProperties _ _ _) as [r|e|]; [|done..].
  replace (String.eqb LOG "ALL") with true by reflexivity. rewrite orb_true_r.
  unfold bind at 1. destruct (jsonSpec !! ep_name endpoint) as [spec|]; simpl; [|done].
  apply reconcile_eq.
Qed.

Lemma filter_fmap_nil {A B} (P : B -> Prop) `{!∀ y, Decision (P y)} (f : A -> B)
    (l : list A) :
  (∀ x, ¬ P (f x)) → filter P (f <$> l) = [].
Proof.
  intros Hf. induction l as [|x l IH]; [done|].
  rewrite fmap_cons, filter_cons_False by done. exact IH.
Qed.

Lemma filter_fmap_all {A B} (P : B -> Prop) `{!∀ y, Decision (P y)} (f : A -> B)
    (l : list A) :
  (∀ x, P (f x)) → filter P (f <$> l) = f <$> l.
Proof.
  intros Hf. induction l as [|x l IH]; [done|].
  rewrite fmap_cons, filter_cons_True by done. by rewrite IH.
Qed.

Lemma filter_body_warnings request r spec :
  filter (fun w => is_body_warning w) (endpointWarnings request r spec)
  = bodyWarnings request r spec.
Proof.
  unfold endpointWarnings, pathWarnings, queryWarnings. rewrite !filter_app.
  rewrite !filter_fmap_nil by (intros ? []).
  destruct (params spec).
  - rewrite !filter_app, !filter_fmap_nil by (intros ? []). simpl.
    unfold bodyWarnings. destruct (body_ r), (body spec); try done.
    by destruct (bool_decide _).
  - unfold bodyWarnings. destruct (body_ r), (body spec); try done.
    by destruct (bool_decide _).
Qed.

Lemma filter_path_warnings request r spec :
  filter (fun w => is_path_warning w) (endpointWarnings request r spec)
  = pathWarnings request r spec.
Proof.
  unfold endpointWarnings, pathWarnings, queryWarnings. rewrite !filter_app.
  rewrite !filter_fmap_all by (intros ?; exact I).
  assert (filter (fun w => is_path_warning w) (bodyWarnings request r spec) = []) as ->.
  { unfold bodyWarnings. destruct (body_ r), (body spec); try done.
    by destruct (bool_decide _). }
  destruct (params spec).
  - rewrite !filter_app, !filter_fmap_nil by (intros ? []). simpl.
    by rewrite !app_nil_r.
  - simpl. by rewrite !app_nil_r.
Qed.

(** The url parts of a json spec: the names of the parts of its paths,
    each once. *)
Lemma urlParts_elem_of spec name :
  name ∈ urlParts spec ↔
  ∃ path parts_, path ∈ paths (url spec) ∧ parts path = Some parts_ ∧
                 name ∈ Object_keys parts_.
Proof.
  unfold urlParts. rewrite new_Set_elem_of, list_elem_of_In, in_flat_map. split.
  - intros (path & [[parts_ Hparts] Hpath]%list_elem_of_In%list_elem_of_filter & Hname).
    rewrite Hparts in Hname. exists path, parts_. by apply list_elem_of_In in Hname.
  - intros (path & parts_ & Hpath & Hparts & Hname). exists path. split.
    + apply list_elem_of_In, list_elem_of_filter. split; [by eexists|done].
    + rewrite Hparts. by apply list_elem_of_In.
Qed.

Lemma urlParts_NoDup spec : NoDup (urlParts spec).
Proof. apply new_Set_NoDup. Qed.

Lemma missing_from_elem_of present l name :
  name ∈ missing_from present l ↔ name ∈ l ∧ name ∉ present.
Proof. unfold missing_from. rewrite list_elem_of_filter. naive_solver. Qed.

(** The path warnings are the two differences of the two sets of names. *)
Lemma pathWarnings_elem_of request r spec w :
  w ∈ pathWarnings request r spec ↔
  (∃ name, w = PathNotInSpec request name ∧
           name ∈ names (path r) ∧ name ∉ urlParts spec) ∨
  (∃ name, w = PathNotInModel request name ∧
           name ∈ urlParts spec ∧ name ∉ names (path r)).
Proof.
  unfold pathWarnings. rewrite elem_of_app, !list_elem_of_fmap.
  setoid_rewrite missing_from_elem_of. naive_solver.
Qed.

Lemma filter_none {A} (P : A -> Prop) `{!∀ x, Decision (P x)} (l : list A) :
  (∀ x, x ∈ l → ¬ P x) → filter P l = [].
Proof.
  induction l as [|a l IH]; intros Hl; [done|].
  rewrite filter_cons_False by (apply Hl; left). apply IH. intros x Hx. apply Hl. by right.
Qed.

Lemma filter_NoDup_singleton {A} (P : A -> Prop) `{!∀ x, Decision (P x)} (l : list A) x :
  NoDup l → x ∈ l → (∀ y, y ∈ l → P y ↔ y = x) → filter P l = [x].
Proof.
  induction 1 as [|a l Ha Hl IH]; intros Hx HP; [by apply elem_of_nil in Hx|].
  destruct (decide (P a)) as [HPa|HPa].
  - apply HP in HPa as ->; [|left]. rewrite filter_cons_True by (apply HP; [left|done]).
    f_equal. apply filter_none. intros y Hy HPy. apply HP in HPy; [|by right]. by subst.
  - rewrite filter_cons_False by done.
    apply elem_of_cons in Hx as [->|Hx]; [destruct HPa; apply HP; [left|done]|].
    apply IH; [done|]. intros y Hy. apply HP. by right.
Qed.

(** C4: for an endpoint with a request that flattens and with a json spec,
    the loop body completes and the body warnings among the warnings it
    writes are: none when the flattened request has no body and the body of
    the json spec is not required; "should include a body" alone when the
    flattened request has no body and the body of the json spec is
    required; "should not include a body" alone when the flattened request
    has a body and the json spec has none; none when both have a body. *)
Theorem body_reconciliation types jsonSpec fuel endpoint request d r spec log :
  ep_request endpoint = Some request →
  getDefinition types (tn_name request) = Ok d →
  getProperties types fuel d = Ok r →
  jsonSpec !! ep_name endpoint = Some spec →
  ∃ ws, validateEndpoint types jsonSpec fuel endpoint log = (log ++ ws, Ok tt) ∧
        let body_ws := filter (fun w => is_body_warning w) ws in
        (body_ r = noBody → ∀ b, body spec = Some b → required b = Some false →
         body_ws = []) ∧
        (body_ r = noBody → ∀ b, body spec = Some b → required b = Some true →
         body_ws = [ShouldIncludeBody (tn_name request)]) ∧
        (body_ r = yesBody → body spec = None →
         body_ws = [ShouldNotIncludeBody (tn_name request)]) ∧
        (body_ r = yesBody → ∀ b, body spec = Some b → body_ws = []).
Proof.
  intros Hrequest Hd Hr Hspec. exists (endpointWarnings (tn_name request) r spec).
  split; [by rewrite validateEndpoint_eq, Hrequest, Hd, Hr, Hspec|].
  cbv zeta. rewrite filter_body_warnings. unfold bodyWarnings.
  split_and!.
  - by intros -> b -> ->.
  - by intros -> b -> ->.
  - by intros -> ->.
  - by intros -> b ->.
Qed.

Lemma body_reconciliation_witness :
  ∃ ws, validateEndpoint example_types example_jsonSpec 3 mget [] = ([] ++ ws, Ok tt) ∧
        filter (fun w => is_body_warning w) ws = [ShouldIncludeBody "MultiGetRequest"].
Proof.
  destruct (body_reconciliation example_types example_jsonSpec 3 mget
              (global "MultiGetRequest") MultiGetRequest
              {| path := []; query := own_query MultiGetRequest; body_ := noBody |}
              mget_spec [])
    as (ws & Hws & _ & Hrequired & _); [reflexivity..|].
  exists ws. split; [exact Hws|].
  apply (Hrequired eq_refl {| required := Some true |}); reflexivity.
Defined.

(** C5: for an endpoint with a request that flattens and with a json spec,
    the url parts are the names of the parts of all the paths of the json
    spec, each once; the path warnings written are one "not present in the
    json spec" for a flattened path property that is no url part and one
    "does not include" for a url part that is no flattened path property;
    when the flattened path properties are named [id] and the url parts are
    [id] and [version], the only path warning is "does not include" for
    [version]. *)
Theorem path_reconciliation types jsonSpec fuel endpoint request d r spec log id version :
  ep_request endpoint = Some request →
  getDefinition types (tn_name request) = Ok d →
  getProperties types fuel d = Ok r →
  jsonSpec !! ep_name endpoint = Some spec →
  ∃ ws, validateEndpoint types jsonSpec fuel endpoint log = (log ++ ws, Ok tt) ∧
        let path_ws := filter (fun w => is_path_warning w) ws in
        NoDup (urlParts spec) ∧
        (∀ name, name ∈ urlParts spec ↔
                 ∃ path parts_, path ∈ paths (url spec) ∧ parts path = Some parts_ ∧
                                name ∈ Object_keys parts_) ∧
        (∀ w, w ∈ path_ws ↔
              (∃ name, w = PathNotInSpec (tn_name request) name ∧
                       name ∈ names (path r) ∧ name ∉ urlParts spec) ∨
              (∃ name, w = PathNotInModel (tn_name request) name ∧
                       name ∈ urlParts spec ∧ name ∉ names (path r))) ∧
        (id ≠ version →
         (∀ name, name ∈ names (path r) ↔ name = id) →
         (∀ name, name ∈ urlParts spec ↔ name = id ∨ name = version) →
         path_ws = [PathNotInModel (tn_name request) version]).
Proof.
  intros Hrequest Hd Hr Hspec. exists (endpointWarnings (tn_name request) r spec).
  split; [by rewrite validateEndpoint_eq, Hrequest, Hd, Hr, Hspec|].
  cbv zeta. rewrite filter_path_warnings.
  split_and!; [apply urlParts_NoDup|apply urlParts_elem_of|apply pathWarnings_elem_of|].
  intros Hne Hmodel Hparts. unfold pathWarnings, missing_from.
  rewrite (filter_none _ (names (path r))).
  2:{ intros name ->%Hmodel Hid. apply Hid, Hparts. by left. }
  rewrite (filter_NoDup_singleton _ (urlParts spec) version); [done|..].
  - apply urlParts_NoDup.
  - apply Hparts. by right.
  - intros name [->| ->]%Hparts; rewrite Hmodel; naive_solver.
Qed.

Lemma path_reconciliation_witness :
  ∃ ws, validateEndpoint union_types example_jsonSpec 4 get_id [] = ([] ++ ws, Ok tt) ∧
        filter (fun w => is_path_warning w) ws = [PathNotInModel "WithId" "version"].
Proof.
  destruct (path_reconciliation union_types example_jsonSpec 4 get_id (global "WithId")
              WithId (ownProperties WithId) get_id_spec [] "id" "version")
    as (ws & Hws & _ & _ & _ & Hone); [reflexivity..|].
  exists ws. split; [exact Hws|]. apply Hone.
  - discriminate.
  - intros name. change (names (path (ownProperties WithId))) with ["id"%string].
    apply list_elem_of_singleton.
  - intros name. change (urlParts get_id_spec) with ["id"%string; "version"%string].
    rewrite elem_of_cons, list_elem_of_singleton. reflexivity.
Defined.

(** ** The loop over the endpoints *)

Lemma for_of_app {A} (f : A -> Console unit) l1 l2 log :
  for_of (l1 ++ l2) f log =
  match for_of l1 f log with
  | (log', Ok _) => for_of l2 f log'
  | other => other
  end.
Proof.
  revert log. induction l1 as [|x l1 IH]; intros log; simpl; [done|].
  unfold bind. destruct (f x log) as [log' [[]|e|]]; [apply IH|done..].
Qed.

Lemma validateRestSpec_eq fuel model jsonSpec log :
  validateRestSpec fuel model jsonSpec log =
  match for_of (endpoints model) (validateEndpoint (types model) jsonSpec fuel) log with
  | (log', Ok _) => (log', Ok model)
  | (log', Throw e) => (log', Throw e)
  | (log', OutOfFuel) => (log', OutOfFuel)
  end.
Proof. unfold validateRestSpec, bind. by destruct (for_of _ _ log) as [log' [[]|e|]]. Qed.

Lemma validateEndpoint_Ok types jsonSpec fuel endpoint log log' :
  validateEndpoint types jsonSpec fuel endpoint log = (log', Ok tt) →
  ¬ missing_definition types endpoint ∧ ¬ missing_spec jsonSpec endpoint.
Proof.
  rewrite validateEndpoint_eq.
  destruct (ep_request endpoint) as [request|] eqn:Hrequest.
  2:{ intros _. split; intros (? & ? & _); congruence. }
  destruct (getDefinition _ _) as [d|e|] eqn:Hd; [|done..].
  destruct (getProperties _ _ _) as [r|e|] eqn:Hr; [|done..].
  destruct (jsonSpec !! _) as [spec|] eqn:Hspec; [|done].
  intros _. split.
  - intros (request' & Hrequest' &
             [Hundefined%getDefinition_Throw|(d' & a & Hd' & Ha & Hdangling)]);
      rewrite Hrequest in Hrequest'; injection Hrequest' as <-; [congruence|].
    rewrite Hd in Hd'. injection Hd' as <-.
    by eapply getProperties_Ok_not_dangling.
  - intros (? & _ & ?). congruence.
Qed.

Lemma validateEndpoint_Throw types jsonSpec fuel endpoint log log' e :
  validateEndpoint types jsonSpec fuel endpoint log = (log', Throw e) →
  log' = log ∧
  ((∃ name, e = DefinitionNotFound name ∧ missing_definition types endpoint) ∨
   (e = SpecNotFound (ep_name endpoint) ∧ missing_spec jsonSpec endpoint)).
Proof.
  rewrite validateEndpoint_eq.
  destruct (ep_request endpoint) as [request|] eqn:Hrequest; [|done].
  destruct (getDefinition_cases types (tn_name request)) as [[d Hd]|Hd]; rewrite Hd.
  - destruct (getProperties _ _ _) as [r|e'|] eqn:Hr; [| |done].
    + destruct (jsonSpec !! _) as [spec|] eqn:Hspec; [done|].
      intros [= <- <-]. split; [done|]. right. split; [done|]. by exists request.
    + intros [= <- <-]. split; [done|]. left.
      apply getProperties_Throw in Hr as (a & name & Ha & Hname & Hget & ->).
      exists name. split; [done|]. exists request. split; [done|]. right.
      exists d, a. split_and!; [done..|]. exists name. by rewrite <- getDefinition_Throw.
  - intros [= <- <-]. split; [done|]. left. exists (tn_name request). split; [done|].
    exists request. split; [done|]. left. by apply getDefinition_Throw.
Qed.

Lemma validateEndpoint_OutOfFuel types jsonSpec fuel endpoint log log' :
  acyclic types → length types < fuel →
  validateEndpoint types jsonSpec fuel endpoint log ≠ (log', OutOfFuel).
Proof.
  intros Hacyclic Hfuel. rewrite validateEndpoint_eq.
  destruct (ep_request endpoint) as [request|]; [|done].
  destruct (getDefinition_cases types (tn_name request)) as [[d Hd]|Hd]; rewrite Hd; [|done].
  destruct (getProperties _ _ _) as [r|e'|] eqn:Hr.
  - by destruct (jsonSpec !! _).
  - done.
  - apply getProperties_OutOfFuel in Hr as (l & Hl & <-).
    pose proof (chain_length _ _ _ Hacyclic Hl). lia.
Qed.

(** The loop stops at the first endpoint that throws; it completes when no
    endpoint lacks a definition or a json spec. *)
Lemma for_of_validateEndpoint types jsonSpec fuel es log :
  acyclic types → length types < fuel →
  (∃ log', for_of es (validateEndpoint types jsonSpec fuel) log = (log', Ok tt) ∧
           ∀ endpoint, endpoint ∈ es →
                       ¬ missing_definition types endpoint ∧
                       ¬ missing_spec jsonSpec endpoint) ∨
  (∃ log' e endpoint,
      for_of es (validateEndpoint types jsonSpec fuel) log = (log', Throw e) ∧
      endpoint ∈ es ∧
      ((∃ name, e = DefinitionNotFound name ∧ missing_definition types endpoint) ∨
       (e = SpecNotFound (ep_name endpoint) ∧ missing_spec jsonSpec endpoint))).
Proof.
  intros Hacyclic Hfuel. revert log.
  induction es as [|endpoint es IH]; intros log.
  { left. exists log. split; [done|]. by intros ? ?%elem_of_nil. }
  simpl. unfold bind.
  destruct (validateEndpoint types jsonSpec fuel endpoint log) as [log1 [[]|e|]] eqn:Hfirst.
  - apply validateEndpoint_Ok in Hfirst.
    destruct (IH log1) as [(log' & Hrest & Hnone)|(log' & e & bad & Hrest & Hbad & He)].
    + left. exists log'. split; [done|]. by intros ? [->|?]%elem_of_cons; auto.
    + right. exists log', e, bad. split_and!; [done|by right|done].
  - apply validateEndpoint_Throw in Hfirst as [-> He].
    right. exists log, e, endpoint. split_and!; [done|left|done].
  - by eapply validateEndpoint_OutOfFuel in Hfirst.
Qed.

Lemma for_of_skip {A} (f : A -> Console unit) before x after log :
  (∀ log, f x log = (log, Ok tt)) →
  for_of (before ++ after) f log = for_of (before ++ x :: after) f log.
Proof.
  intros Hx. rewrite !for_of_app. destruct (for_of before f log) as [log' [[]|e|]]; [|done..].
  simpl. unfold bind. by rewrite Hx.
Qed.

(** C6: in a model without a cycle, with fuel for the depth of the graph,
    the pass throws exactly when some endpoint with a request lacks a
    definition (of its request, or of a name inherited by the request or by
    one of its ancestors) or lacks a json spec; the exception names such an
    endpoint; otherwise the pass returns the model, whatever it wrote to
    the console; an endpoint without a request can be removed without
    changing what the loop writes or how it ends. *)
Theorem validateRestSpec_throws fuel model jsonSpec :
  acyclic (types model) → length (types model) < fuel →
  ∃ log outcome,
    validateRestSpec fuel model jsonSpec [] = (log, outcome) ∧
    ((∃ e, outcome = Throw e) ↔
     ∃ endpoint, endpoint ∈ endpoints model ∧
                 (missing_definition (types model) endpoint ∨
                  missing_spec jsonSpec endpoint)) ∧
    (∀ e, outcome = Throw e →
          ∃ endpoint, endpoint ∈ endpoints model ∧
            ((∃ name, e = DefinitionNotFound name ∧
                      missing_definition (types model) endpoint) ∨
             (e = SpecNotFound (ep_name endpoint) ∧ missing_spec jsonSpec endpoint))) ∧
    ((∀ e, outcome ≠ Throw e) → outcome = Ok model) ∧
    (∀ before endpoint after,
        endpoints model = before ++ endpoint :: after → ep_request endpoint = None →
        for_of (before ++ after) (validateEndpoint (types model) jsonSpec fuel) [] =
        for_of (endpoints model) (validateEndpoint (types model) jsonSpec fuel) []).
Proof.
  intros Hacyclic Hfuel.
  assert (∀ before endpoint after,
            endpoints model = before ++ endpoint :: after → ep_request endpoint = None →
            for_of (before ++ after) (validateEndpoint (types model) jsonSpec fuel) [] =
            for_of (endpoints model) (validateEndpoint (types model) jsonSpec fuel) [])
    as Hskip.
  { intros before endpoint after -> Hnull. apply for_of_skip.
    intros log. by rewrite validateEndpoint_eq, Hnull. }
  rewrite validateRestSpec_eq.
  destruct (for_of_validateEndpoint (types model) jsonSpec fuel (endpoints model) []
              Hacyclic Hfuel)
    as [(log' & Hrun & Hnone)|(log' & e & bad & Hrun & Hbad & He)].
  - exists log', (Ok model). split_and!; [by rewrite Hrun| |done|done|done].
    split; [by intros [e ?]|].
    intros (endpoint & Hin & Hmissing). destruct (Hnone _ Hin). tauto.
  - exists log', (Throw e).
    split_and!; [by rewrite Hrun| | |intros Hno; by destruct (Hno e)|done].
    + split; [|by eauto]. intros _. exists bad. split; [done|]. naive_solver.
    + intros e' [= <-]. by exists bad.
Qed.

Lemma validateRestSpec_throws_witness :
  ∃ log outcome,
    validateRestSpec 4 gone_model example_jsonSpec [] = (log, outcome) ∧
    outcome = Throw (DefinitionNotFound "Missing") ∧
    ∃ endpoint, endpoint ∈ endpoints gone_model ∧
                (missing_definition (types gone_model) endpoint ∨
                 missing_spec example_jsonSpec endpoint).
Proof.
  destruct (validateRestSpec_throws 4 gone_model example_jsonSpec)
    as (log & outcome & Hrun & Hiff & _).
  - apply (ranked_acyclic union_types union_rank). reflexivity.
  - simpl. lia.
  - exists log, outcome. split; [exact Hrun|].
    assert (outcome = Throw (DefinitionNotFound "Missing")) as Houtcome.
    { change (validateRestSpec 4 gone_model example_jsonSpec [])
        with ([PathNotInModel "WithId" "version"],
              @Throw Model (DefinitionNotFound "Missing")) in Hrun.
      congruence. }
    split; [exact Houtcome|]. apply Hiff. eexists. exact Houtcome.
Defined.

(** C7, as the code has it: the pass stops at the first exception.  When
    the request of an endpoint has no definition and the endpoints before
    it are processed without an exception, the pass throws the exception of
    [getDefinition] for that request; the console has the warnings of the
    endpoints before it and nothing else. *)
Theorem validateRestSpec_missing_definition fuel model jsonSpec before endpoint after
    request log :
  endpoints model = before ++ endpoint :: after →
  ep_request endpoint = Some request →
  undefined_name (types model) (tn_name request) →
  for_of before (validateEndpoint (types model) jsonSpec fuel) [] = (log, Ok tt) →
  validateRestSpec fuel model jsonSpec [] =
  (log, Throw (DefinitionNotFound (tn_name request))).
Proof.
  intros Hendpoints Hrequest Hundefined%getDefinition_Throw Hbefore.
  rewrite validateRestSpec_eq, Hendpoints, for_of_app, Hbefore. simpl. unfold bind.
  by rewrite validateEndpoint_eq, Hrequest, Hundefined.
Qed.

Lemma validateRestSpec_missing_definition_witness :
  validateRestSpec 4 gone_model example_jsonSpec [] =
  ([PathNotInModel "WithId" "version"], Throw (DefinitionNotFound "Missing")).
Proof.
  apply (validateRestSpec_missing_definition 4 gone_model example_jsonSpec
           [get_id] gone [] (global "Missing")).
  - reflexivity.
  - reflexivity.
  - apply getDefinition_Throw. reflexivity.
  - reflexivity.
Defined.

(** C7, as the spec has it, fails: the request of [gone] has no
    definition, the pass throws, and the console has the warning of the
    endpoint before [gone]. *)
Lemma validateRestSpec_missing_definition_counterexample :
  gone ∈ endpoints gone_model ∧
  ep_request gone = Some (global "Missing") ∧
  undefined_name (types gone_model) "Missing" ∧
  validateRestSpec 4 gone_model example_jsonSpec [] =
  ([PathNotInModel "WithId" "version"], Throw (DefinitionNotFound "Missing")) ∧
  (validateRestSpec 4 gone_model example_jsonSpec []).1 ≠ [].
Proof.
  split_and!; [by right; left|done|by apply getDefinition_Throw|done|done].
Qed.

(** When the pass completes, it returns the model it was given. *)
Lemma validateRestSpec_returns_model fuel model jsonSpec log log' m :
  validateRestSpec fuel model jsonSpec log = (log', Ok m) → m = model.
Proof.
  rewrite validateRestSpec_eq. destruct (for_of _ _ log) as [? [[]|e|]]; congruence.
Qed.

(** ** Names that occur more than once *)

















(** ** The pass on the heap *)

Lemma read_app_l heap ext array :
  array < length heap → read (heap ++ ext) array = read heap array.
Proof. intros H. unfold read. by rewrite lookup_app_l. Qed.

Lemma push_all_eq array items heap :
  push_all array items heap
  = (alter (fun elements => elements ++ read heap items) array heap, Ok tt).
Proof.
  unfold push_all, bind, spread, read.
  destruct (default [] (heap !! items)) as [|p elements]; simpl.
  - rewrite list_alter_id; [done|]. intros. by rewrite app_nil_r.
  - done.
Qed.

Lemma definition_in_app heap ext d :
  (∀ array, array ∈ definition_refs d → array < length heap) →
  definition_in (heap ++ ext) d = definition_in heap d.
Proof.
  intros H. destruct d as [r|i]; simpl in *.
  - rewrite !read_app_l by (apply H; set_solver).
    destruct (obj_req_body r) as [body|] eqn:Hbody; simpl; [|done].
    rewrite read_app_l; [done|]. apply H. set_solver.
  - rewrite read_app_l; [done|]. apply H. set_solver.
Qed.

Lemma types_in_app heap ext types :
  allocated heap types → type_in (heap ++ ext) <$> types = type_in heap <$> types.
Proof.
  intros H. apply list_fmap_ext. intros i t Ht%list_elem_of_lookup_2.
  destruct t as [d|]; simpl; [|done]. f_equal. apply definition_in_app.
  intros array Harray. by apply (H (ObjRI d)).
Qed.

Lemma allocated_app heap ext types : allocated heap types → allocated (heap ++ ext) types.
Proof. intros H t array Ht Harray. rewrite length_app. specialize (H t array Ht Harray). lia. Qed.

Lemma getDefinitionObj_elem_of types name d :
  getDefinitionObj types name = Ok d → ObjRI d ∈ types.
Proof.
  induction types as [|[d'|n] types IH]; simpl; [done| |].
  - destruct (String.eqb (tn_name (obj_name d')) name).
    + intros [= <-]. left.
    + intros ?%IH. by right.
  - intros ?%IH. by right.
Qed.

Lemma kind_name_definition_in heap d : kind_name (definition_in heap d) = obj_name d.
Proof. by destruct d. Qed.

Lemma inherit_names_definition_in heap d :
  inherit_names (definition_in heap d) = obj_inherit_names d.
Proof. by destruct d. Qed.

(** Looking a name up in the model of objects is looking it up in the
    model that it stands for. *)
Lemma getDefinition_in heap types name :
  getDefinition (type_in heap <$> types) name
  = definition_in heap <$> getDefinitionObj types name.
Proof.
  induction types as [|[d|n] types IH]; csimpl; [done| |done].
  rewrite kind_name_definition_in.
  by destruct (String.eqb (tn_name (obj_name d)) name).
Qed.

Lemma mapR_getDefinition_in heap (types : list TypeObj) names :
  mapR (getDefinition (type_in heap <$> types)) names
  = fmap (M:=list) (definition_in heap) <$> mapR (getDefinitionObj types) names.
Proof.
  induction names as [|name names IH]; [done|].
  simpl. rewrite getDefinition_in, IH.
  destruct (getDefinitionObj types name); [|done..].
  destruct (mapR (getDefinitionObj types) names); reflexivity.
Qed.

Lemma mapR_elem_of {A B} (f : A -> Result B) l ys y :
  mapR f l = Ok ys → y ∈ ys → ∃ x, x ∈ l ∧ f x = Ok y.
Proof.
  intros Hys%mapR_Ok (i & Hi)%list_elem_of_lookup.
  destruct (Forall2_lookup_r _ _ _ _ _ Hys Hi) as (x & Hx & Hfx).
  exists x. split; [|done]. apply list_elem_of_lookup. eauto.
Qed.

Lemma alter_path {A} (f : list A -> list A) (heap : list (list A)) P Q rest :
  alter f (length heap) (heap ++ P :: Q :: rest) = heap ++ f P :: Q :: rest.
Proof. by rewrite <- (Nat.add_0_r (length heap)), alter_app_r. Qed.

Lemma alter_query {A} (f : list A -> list A) (heap : list (list A)) P Q rest :
  alter f (S (length heap)) (heap ++ P :: Q :: rest) = heap ++ P :: f Q :: rest.
Proof. by rewrite <- Nat.add_1_r, alter_app_r. Qed.

Lemma read_path heap P Q rest : read (heap ++ P :: Q :: rest) (length heap) = P.
Proof. unfold read. by rewrite list_lookup_middle. Qed.

Lemma read_query heap P Q rest : read (heap ++ P :: Q :: rest) (S (length heap)) = Q.
Proof.
  unfold read. rewrite (cons_middle P heap), app_assoc.
  rewrite list_lookup_middle; [done|]. rewrite length_app. simpl. lia.
Qed.

(** [getPropertiesObj] step by step: two new arrays at the end of the
    heap, filled with the properties of the definition itself; the lookup
    of the inherited names; the loop. *)
Lemma getPropertiesObj_unfold types fuel d heap :
  (∀ array, array ∈ definition_refs d → array < length heap) →
  getPropertiesObj types (S fuel) d heap =
  let own := ownProperties (definition_in heap d) in
  let heap1 := heap ++ [path own; query own] in
  match mapR (getDefinitionObj types) (obj_inherit_names d) with
  | Ok ds =>
      match fold_of (inheritObj types fuel (length heap) (S (length heap)))
                    (body_ own) ds heap1 with
      | (heap2, Ok body) =>
          (heap2, Ok {| obj_path := length heap; obj_query := S (length heap);
                        obj_body := body |})
      | (heap2, Throw e) => (heap2, Throw e)
      | (heap2, OutOfFuel) => (heap2, OutOfFuel)
      end
  | Throw e => (heap1, Throw e)
  | OutOfFuel => (heap1, OutOfFuel)
  end.
Proof.
  intros Hrefs.
  cbv zeta. rewrite ownProperties_path, ownProperties_query.
  cbn [getPropertiesObj]. unfold bind at 1, new_array at 1.
  unfold bind at 1, new_array at 1. rewrite length_app, Nat.add_1_r, <- app_assoc.
  cbn [app].
  assert (∃ body, body = body_ (ownProperties (definition_in heap d))) as [body0 Hbody0]
    by eauto.
  rewrite <- Hbody0.
  assert (match d with
          | ObjRequest r =>
              (push_all (length heap) (obj_req_path r) ;;
               push_all (S (length heap)) (obj_req_query r) ;;
               ret (match obj_req_body r with Some _ => yesBody | None => noBody end))%eff
          | ObjInterface i =>
              (push_all (S (length heap)) (obj_if_properties i) ;; ret noBody)%eff
          end (heap ++ [[]; []])
          = (heap ++ [own_path (definition_in heap d); own_query (definition_in heap d)],
             Ok body0)) as Hown.
  { subst body0. destruct d as [r|i]; simpl in Hrefs |- *.
    - unfold bind. rewrite push_all_eq, alter_path, push_all_eq, alter_query.
      rewrite !read_app_l by (apply Hrefs; set_solver). unfold ret. simpl.
      by destruct (obj_req_body r).
    - unfold bind. rewrite push_all_eq, alter_query.
      rewrite !read_app_l by (apply Hrefs; set_solver). done. }
  unfold bind at 1. rewrite Hown. unfold obj_inherit_names.
  destruct (obj_inherits d) as [inherits_|].
  - unfold bind at 1. unfold lift at 1. rewrite mapR_fmap.
    destruct (mapR _ inherits_) as [ds|e|]; [|done..].
    unfold bind at 1.
    change (fold_of _ body0 ds) with
      (fold_of (inheritObj types fuel (length heap) (S (length heap))) body0 ds).
    by destruct (fold_of _ body0 ds _) as [heap2 [body|e|]].
  - done.
Qed.

Lemma read_beyond heap P Q P' Q' rest array :
  length heap + 2 ≤ array →
  read (heap ++ P :: Q :: rest) array = read (heap ++ P' :: Q' :: rest) array.
Proof.
  intros H. unfold read. rewrite !lookup_app_r by lia.
  destruct (array - length heap) as [|[|n]] eqn:E; [lia|lia|done].
Qed.

Lemma inheritProperties_eq acc properties :
  inheritProperties acc properties =
  {| path := path acc ++ path properties;
     query := query acc ++ query properties;
     body_ := if negb (Body_eqb (body_ acc) (body_ properties)) then body_ properties
              else body_ acc |}.
Proof. unfold inheritProperties. by rewrite !push_guard. Qed.

Lemma fold_inheritObj_refines types fuel heap :
  refines types fuel → allocated heap types →
  ∀ ds, (∀ d, d ∈ ds → ObjRI d ∈ types) →
  ∀ P Q rest body heap' res,
    fold_of (inheritObj types fuel (length heap) (S (length heap))) body ds
            (heap ++ P :: Q :: rest) = (heap', res) →
    ∃ P' Q' rest',
      heap' = heap ++ P' :: Q' :: rest' ∧
      foldR (fun acc inherit =>
               properties ← getProperties (type_in heap <$> types) fuel inherit;
               mret (inheritProperties acc properties))
            {| path := P; query := Q; body_ := body |} (definition_in heap <$> ds)
      = (fun body' => {| path := P'; query := Q'; body_ := body' |}) <$> res.
Proof.
  intros IH Halloc. induction ds as [|d ds IHds]; intros Hds P Q rest body heap' res.
  { intros [= <- <-]. by exists P, Q, rest. }
  assert (ObjRI d ∈ types) as Hd by (apply Hds; left).
  cbn [fold_of]. unfold bind at 1, inheritObj at 1. unfold bind at 1.
  destruct (getPropertiesObj types fuel d (heap ++ P :: Q :: rest))
    as [heap2 res1] eqn:Hcall.
  apply IH in Hcall as ([ext ->] & Hrefs & Hpure); [|by apply allocated_app|done].
  rewrite types_in_app in Hpure by done.
  rewrite definition_in_app in Hpure by (intros array ?; by apply (Halloc (ObjRI d))).
  rewrite fmap_cons. cbn [foldR]. rewrite Hpure.
  destruct res1 as [p|e|]; simpl.
  - destruct (Hrefs p eq_refl) as [Hpath Hquery].
    unfold bind at 1. rewrite push_all_eq.
    unfold bind at 1. rewrite push_all_eq.
    rewrite <- !app_assoc. cbn [app]. rewrite alter_path, alter_query.
    unfold ret at 1. cbn beta iota.
    intros Hrest. apply IHds in Hrest as (P' & Q' & rest' & -> & Hfold).
    2:{ intros d' Hd'. apply Hds. by right. }
    exists P', Q', rest'. split; [done|]. rewrite <- Hfold. f_equal.
    rewrite inheritProperties_eq. unfold properties_in. cbn [path query body_].
    f_equal. f_equal. apply read_beyond. rewrite Hquery, length_app. simpl. lia.
  - intros [= <- <-]. rewrite <- app_assoc. by eexists P, Q, _.
  - intros [= <- <-]. rewrite <- app_assoc. by eexists P, Q, _.
Qed.

Lemma getPropertiesObj_refines types fuel : refines types fuel.
Proof.
  induction fuel as [|fuel IH]; intros d heap heap' res Halloc Hd.
  { intros [= <- <-]. split_and!; [exists []; by rewrite app_nil_r|done..]. }
  assert (∀ array, array ∈ definition_refs d → array < length heap) as Hrefs
    by (intros array ?; by apply (Halloc (ObjRI d))).
  rewrite getPropertiesObj_unfold, getProperties_unfold by done. cbv zeta.
  rewrite inherit_names_definition_in, mapR_getDefinition_in.
  destruct (mapR (getDefinitionObj types) (obj_inherit_names d)) as [ds|e|] eqn:Hds.
  - destruct (fold_of _ _ ds _) as [heap2 res2] eqn:Hfold.
    apply (fold_inheritObj_refines types fuel heap IH Halloc) in Hfold
      as (P' & Q' & rest' & -> & Hpure).
    2:{ intros d' Hd'. destruct (mapR_elem_of _ _ _ _ Hds Hd') as (name & _ & Hget).
        by eapply getDefinitionObj_elem_of. }
    simpl. destruct (ownProperties (definition_in heap d)) as [P Q body] eqn:Hown.
    simpl in Hpure. rewrite Hpure.
    destruct res2 as [body'|e|]; intros [= <- <-]; (split_and!; [by eexists| |]).
    + by intros p [= <-].
    + simpl. unfold properties_in. simpl. by rewrite read_path, read_query.
    + done.
    + done.
    + done.
    + done.
  - intros [= <- <-]. split_and!; [by eexists|done..].
  - intros [= <- <-]. split_and!; [by eexists|done..].
Qed.

(** The body of the loop over the endpoints, on the heap, does what
    [validateEndpoint] does on the model that the objects stand for, and
    only adds arrays to the heap. *)
Lemma validateEndpointObj_refines types jsonSpec fuel endpoint heap log heap' log' res :
  allocated heap types →
  validateEndpointObj types jsonSpec fuel endpoint (heap, log) = ((heap', log'), res) →
  (∃ ext, heap' = heap ++ ext) ∧
  validateEndpoint (type_in heap <$> types) jsonSpec fuel endpoint log = (log', res).
Proof.
  intros Halloc. rewrite validateEndpoint_eq. unfold validateEndpointObj.
  destruct (ep_request endpoint) as [request|].
  2:{ intros [= <- <- <-]. split; [exists []; by rewrite app_nil_r|done]. }
  unfold bind at 1. unfold lift at 1. rewrite getDefinition_in.
  destruct (getDefinitionObj types (tn_name request)) as [d|e|] eqn:Hd; simpl.
  2,3: intros [= <- <- <-]; split; [exists []; by rewrite app_nil_r|done].
  apply getDefinitionObj_elem_of in Hd.
  unfold bind at 1. unfold on_heap at 1.
  destruct (getPropertiesObj types fuel d heap) as [heap1 res1] eqn:Hcall.
  apply getPropertiesObj_refines in Hcall as ([ext ->] & Hrefs & ->); [|done..].
  destruct res1 as [p|e|]; simpl.
  2,3: intros [= <- <- <-]; split; [by eexists|done].
  replace (String.eqb LOG "ALL") with true by reflexivity. rewrite orb_true_r.
  unfold bind at 1.
  destruct (jsonSpec !! ep_name endpoint) as [spec|]; simpl.
  2: intros [= <- <- <-]; split; [by eexists|done].
  unfold bind at 1. unfold on_heap, readProperties. unfold bind at 1 2. simpl.
  change {| path := default [] ((heap ++ ext) !! obj_path p);
            query := default [] ((heap ++ ext) !! obj_query p);
            body_ := obj_body p |} with (properties_in (heap ++ ext) p).
  rewrite reconcile_eq.
  intros [= <- <- <-]. split; [by eexists|done].
Qed.

Lemma for_of_validateEndpointObj_refines types jsonSpec fuel es heap log heap' log' res :
  allocated heap types →
  for_of es (validateEndpointObj types jsonSpec fuel) (heap, log) = ((heap', log'), res) →
  (∃ ext, heap' = heap ++ ext) ∧
  for_of es (validateEndpoint (type_in heap <$> types) jsonSpec fuel) log = (log', res).
Proof.
  revert heap log. induction es as [|endpoint es IH]; intros heap log Halloc.
  { intros [= <- <- <-]. split; [exists []; by rewrite app_nil_r|done]. }
  simpl. unfold bind.
  destruct (validateEndpointObj types jsonSpec fuel endpoint (heap, log))
    as [[heap1 log1] res1] eqn:Hfirst.
  apply validateEndpointObj_refines in Hfirst as ([ext ->] & ->); [|done].
  destruct res1 as [[]|e|].
  - intros Hrest. apply IH in Hrest as ([ext' ->] & Hrest); [|by apply allocated_app].
    rewrite types_in_app in Hrest by done.
    split; [|done]. exists (ext ++ ext'). by rewrite app_assoc.
  - intros [= <- <- <-]. split; [by eexists|done].
  - intros [= <- <- <-]. split; [by eexists|done].
Qed.

(** C8: the pass on a model whose arrays are in the heap.  When it
    completes it returns the model it was given; the heap it leaves is the
    heap it was given followed by new arrays, so every array of the model
    is unchanged and the model stands for the same type model as before;
    the console and the outcome are those of [validateRestSpec] on that
    type model.  The json spec is only read: there is no operation that
    writes to it. *)
Theorem validateRestSpec_frame fuel model jsonSpec heap log heap' log' m :
  allocated heap (obj_types model) →
  validateRestSpecObj fuel model jsonSpec (heap, log) = ((heap', log'), Ok m) →
  m = model ∧
  (∃ new, heap' = heap ++ new) ∧
  (∀ array, array < length heap → heap' !! array = heap !! array) ∧
  model_in heap' model = model_in heap model ∧
  validateRestSpec fuel (model_in heap model) jsonSpec log = (log', Ok (model_in heap m)).
Proof.
  intros Halloc. unfold validateRestSpecObj, bind.
  destruct (for_of _ _ (heap, log)) as [[heap1 log1] [[]|e|]] eqn:Hloop; [|done..].
  intros [= <- <- <-].
  apply for_of_validateEndpointObj_refines in Hloop as ([new ->] & Hloop); [|done].
  split_and!; [done|by eexists| | |].
  - intros array Harray. by apply lookup_app_l.
  - unfold model_in. by rewrite types_in_app.
  - rewrite validateRestSpec_eq. cbn [types endpoints model_in]. by rewrite Hloop.
Qed.

Lemma allocated_Forall heap types :
  Forall (fun t => Forall (fun array => array < length heap) (type_refs t)) types →
  allocated heap types.
Proof.
  intros H t array Ht Harray. rewrite Forall_forall in H.
  specialize (H t Ht). rewrite Forall_forall in H. by apply H.
Qed.

Lemma validateRestSpec_frame_witness :
  ∃ new log,
    validateRestSpecObj 3 union_model union_jsonSpec (union_heap, [])
    = ((union_heap ++ new, log), Ok union_model) ∧
    new ≠ [] ∧
    model_in (union_heap ++ new) union_model = model_in union_heap union_model ∧
    validateRestSpec 3 (model_in union_heap union_model) union_jsonSpec []
    = (log, Ok (model_in union_heap union_model)).
Proof.
  eexists _, _. split; [reflexivity|]. split; [discriminate|].
  eapply (validateRestSpec_frame 3 union_model union_jsonSpec union_heap []).
  - apply allocated_Forall. repeat constructor.
  - reflexivity.
Defined.

(** * Further properties of the pass *)

(** ** The lookup of a definition *)

Lemma undefined_name_app types types' name :
  undefined_name (types ++ types') name ↔
  undefined_name types name ∧ undefined_name types' name.
Proof.
  unfold undefined_name. setoid_rewrite elem_of_app. naive_solver.
Qed.

Lemma getDefinition_app_undefined before types name :
  undefined_name before name →
  getDefinition (before ++ types) name = getDefinition types name.
Proof.
  induction before as [|[d|n] before IH]; intros Hbefore; simpl; [done| |].
  - destruct (String.eqb_spec (tn_name (kind_name d)) name) as [Heq|Hne].
    + destruct (Hbefore d); [left|done].
    + apply IH. intros d' Hd'. apply Hbefore. by right.
  - apply IH. intros d' Hd'. apply Hbefore. by right.
Qed.

(** X1: [getDefinition] returns the first request or interface of the
    types that bears the name: definitions of other kinds are passed over
    whatever their name, the namespace is not compared, and a later
    definition with the same name is never returned.  It throws, for that
    name, exactly when no request and no interface bears the name. *)
Theorem getDefinition_first_match types name :
  (∀ d, getDefinition types name = Ok d ↔
        ∃ before after, types = before ++ TypeRI d :: after ∧
                        tn_name (kind_name d) = name ∧
                        undefined_name before name) ∧
  (getDefinition types name = Throw (DefinitionNotFound name) ↔
   undefined_name types name) ∧
  (∀ e, getDefinition types name = Throw e → e = DefinitionNotFound name).
Proof.
  split_and!.
  - intros d. split.
    + induction types as [|[d'|n] types IH]; simpl; [done| |].
      * destruct (String.eqb_spec (tn_name (kind_name d')) name) as [Heq|Hne].
        -- intros [= <-]. exists [], types. split_and!; [done..|].
           by intros ? ?%elem_of_nil.
        -- intros (before & after & -> & ? & Hbefore)%IH.
           exists (TypeRI d' :: before), after. split_and!; [done..|].
           intros d'' [[= ->]|?]%elem_of_cons; [done|by apply Hbefore].
      * intros (before & after & -> & ? & Hbefore)%IH.
        exists (TypeOther n :: before), after. split_and!; [done..|].
        intros d'' [[=]|?]%elem_of_cons. by apply Hbefore.
    + intros (before & after & -> & Hname & Hbefore).
      rewrite getDefinition_app_undefined by done. simpl.
      by rewrite (proj2 (String.eqb_eq _ _) Hname).
  - apply getDefinition_Throw.
  - intros e He. destruct (getDefinition_cases types name) as [[d Hd]|Hd]; congruence.
Qed.

(** ** The exceptions of the flattening *)

Lemma mapR_app_Throw {A B} (f : A -> Result B) front x back e :
  Forall (fun y => ∃ b, f y = Ok b) front → f x = Throw e →
  mapR f (front ++ x :: back) = Throw e.
Proof.
  intros Hfront Hx. induction Hfront as [|y front [b Hy] _ IH]; simpl.
  - by rewrite Hx.
  - by rewrite Hy, IH.
Qed.

(** X2: [getProperties] looks all the inherited names up before it
    flattens any inherited definition.  When one of the names that a
    definition inherits from has no definition and the names before it
    have one, the call throws for that name, whatever the definitions
    before it are: also when one of them is on a cycle and would never
    flatten. *)
Theorem getProperties_lookup_first types fuel d front name back :
  inherit_names d = front ++ name :: back →
  Forall (fun name' => ∃ d', getDefinition types name' = Ok d') front →
  undefined_name types name →
  getProperties types (S fuel) d = Throw (DefinitionNotFound name).
Proof.
  intros Hnames Hfront Hname%getDefinition_Throw.
  rewrite getProperties_unfold, Hnames.
  by rewrite (mapR_app_Throw _ front name back (DefinitionNotFound name)).
Qed.

Lemma getProperties_lookup_first_witness :
  (∀ fuel r, getProperties loop_types fuel Loop ≠ Ok r) ∧
  getProperties loop_types 1 Dangling = Throw (DefinitionNotFound "Missing").
Proof.
  split.
  - intros fuel r. apply getProperties_cycle. apply tc_once.
    exists "Loop"%string. split; [left|reflexivity].
  - apply (getProperties_lookup_first loop_types 0 Dangling ["Loop"%string] "Missing" []).
    + reflexivity.
    + constructor; [|constructor]. exists Loop. reflexivity.
    + apply getDefinition_Throw. reflexivity.
Defined.

(** X3: the only exception of [getProperties] is the one of
    [getDefinition], and it names a name without a definition that the
    definition or one of its transitive ancestors inherits from. *)
Theorem getProperties_exception types fuel d e :
  getProperties types fuel d = Throw e →
  ∃ a name, ancestor types d a ∧ name ∈ inherit_names a ∧
            undefined_name types name ∧ e = DefinitionNotFound name.
Proof.
  intros (a & name & Ha & Hname & Hget%getDefinition_Throw & ->)%getProperties_Throw.
  by exists a, name.
Qed.

Lemma getProperties_exception_witness :
  ∃ a name, ancestor orphan_types Child a ∧ name ∈ inherit_names a ∧
            undefined_name orphan_types name ∧
            DefinitionNotFound "Missing" = DefinitionNotFound name.
Proof.
  apply (getProperties_exception orphan_types 2 Child (DefinitionNotFound "Missing")).
  reflexivity.
Defined.

(** ** The definitions that flatten *)

Lemma chain_ancestor types d l x : chain types d l → x ∈ l → ancestor types d x.
Proof. intros Hl Hx. eapply tc_rtc, chain_tc; done. Qed.

Lemma chain_NoDup_below types d l :
  (∀ a, ancestor types d a → ¬ tc (edge types) a a) → chain types d l → NoDup l.
Proof.
  revert d. induction l as [|d' l IH]; intros d Hd; [constructor|].
  intros [Hedge Hl]. constructor.
  - intros Hin. apply (Hd d'); [by apply rtc_once|]. by eapply chain_tc.
  - apply (IH d'); [|done]. intros a Ha. apply Hd. by eapply rtc_l.
Qed.

(** X4: [getProperties] returns a value for a definition, given a call
    stack deep enough, exactly when no name inherited by the definition or
    by one of its transitive ancestors lacks a definition and none of them
    is on a cycle of the inheritance graph; the number of types, plus one,
    is deep enough. *)
Theorem getProperties_returns_iff types d :
  ((∃ fuel r, getProperties types fuel d = Ok r) ↔
   ∀ a, ancestor types d a → ¬ dangling types a ∧ ¬ tc (edge types) a a) ∧
  ((∃ fuel r, getProperties types fuel d = Ok r) →
   ∃ r, getProperties types (S (length types)) d = Ok r).
Proof.
  assert ((∀ a, ancestor types d a → ¬ dangling types a ∧ ¬ tc (edge types) a a) →
          ∃ r, getProperties types (S (length types)) d = Ok r) as Hback.
  { intros Hd. destruct (getProperties types (S (length types)) d) as [r|e|] eqn:Hrun.
    - by exists r.
    - apply getProperties_Throw in Hrun
        as (a & name & Ha & Hname & Hundefined%getDefinition_Throw & _).
      destruct (Hd a Ha) as [Hdangling _]. destruct Hdangling. by exists name.
    - apply getProperties_OutOfFuel in Hrun as (l & Hl & Hlen).
      assert (length l ≤ length types); [|lia].
      rewrite <- (length_fmap TypeRI l). apply submseteq_length, NoDup_submseteq.
      + apply NoDup_fmap; [by intros ?? [=]|].
        eapply chain_NoDup_below; [|done]. intros a Ha. by apply Hd.
      + intros t (x & -> & Hx)%list_elem_of_fmap. by eapply chain_types. }
  assert ((∃ fuel r, getProperties types fuel d = Ok r) →
          ∀ a, ancestor types d a → ¬ dangling types a ∧ ¬ tc (edge types) a a) as Hforth.
  { intros (fuel & r & Hrun) a Ha. split.
    - by eapply getProperties_Ok_not_dangling.
    - intros Hcycle.
      destruct (getProperties_Ok_ancestor _ _ _ _ _ Hrun Ha) as (ra & Hra).
      by eapply getProperties_cycle. }
  split; [split|]; [done| |].
  - intros Hd. destruct (Hback Hd) as [r Hr]. eauto.
  - intros Hrun. apply Hback, Hforth, Hrun.
Qed.

(** X5: the flattened path and query properties are lists in a fixed
    order, with repetitions kept: the properties of the definition itself
    (for an interface, no path property, and its properties as query
    properties), then the flattened properties of each inherited
    definition, in the order of the [inherits]. *)
Theorem getProperties_order types fuel d r :
  getProperties types (S fuel) d = Ok r →
  ∃ rs,
    Forall2 (fun name r' => ∃ d', getDefinition types name = Ok d' ∧
                                   getProperties types fuel d' = Ok r')
            (inherit_names d) rs ∧
    path r = own_path d ++ mjoin (path <$> rs) ∧
    query r = own_query d ++ mjoin (query <$> rs) ∧
    length (path r) = length (own_path d) + sum_list (length ∘ path <$> rs) ∧
    length (query r) = length (own_query d) + sum_list (length ∘ query <$> rs).
Proof.
  intros (ds & rs & Hds & Hrs & ->)%getProperties_Ok. exists rs.
  assert (∀ ls : list (list Property), length (mjoin ls) = sum_list (length <$> ls)) as Hsum.
  { induction ls as [|l ls IH]; [done|]. csimpl. rewrite length_app. by rewrite IH. }
  rewrite foldl_inheritProperties_path, foldl_inheritProperties_query.
  rewrite ownProperties_path, ownProperties_query, !length_app, !Hsum.
  rewrite <- !list_fmap_compose. split_and!; [|done..].
  clear -Hds Hrs. revert rs Hrs. induction Hds as [|name d' names ds Hd' _ IH]; intros rs Hrs.
  - inversion Hrs. constructor.
  - inversion Hrs as [|? r' ? rs' Hr' Hrs']; subst. constructor; [by exists d'|by apply IH].
Qed.

Lemma getProperties_order_witness :
  ∃ rs,
    Forall2 (fun name r' => ∃ d', getDefinition diamond_types name = Ok d' ∧
                                   getProperties diamond_types 2 d' = Ok r')
            ["Left"; "Right"]%string rs ∧
    [property "id"; property "id"] = [] ++ mjoin (path <$> rs) ∧
    [] = [] ++ mjoin (query <$> rs) ∧
    2 = 0 + sum_list (length ∘ path <$> rs) ∧
    0 = 0 + sum_list (length ∘ query <$> rs).
Proof.
  apply (getProperties_order diamond_types 2 Both
           {| path := [property "id"; property "id"]; query := []; body_ := noBody |}).
  reflexivity.
Defined.

(** ** The comparison with the json spec *)

Lemma filter_query_warnings request r spec :
  filter (fun w => is_query_warning w) (endpointWarnings request r spec)
  = queryWarnings request r spec.
Proof.
  unfold endpointWarnings, pathWarnings. rewrite !filter_app.
  rewrite !filter_fmap_nil by (intros ? []).
  assert (filter (fun w => is_query_warning w) (bodyWarnings request r spec) = []) as ->.
  { unfold bodyWarnings. destruct (body_ r), (body spec); try done.
    by destruct (bool_decide _). }
  unfold queryWarnings. destruct (params spec); [|done].
  rewrite filter_app, !filter_fmap_all by (intros ?; exact I). simpl.
  by rewrite app_nil_r.
Qed.

(** X6: for an endpoint with a request that flattens and with a json spec,
    the query warnings written are: none at all when the json spec has no
    [params], whatever the query properties of the request; otherwise one
    "not present in the json spec" for each flattened query property that
    is no key of [params], and one "does not include" for each key of
    [params] that is no flattened query property. *)
Theorem query_reconciliation types jsonSpec fuel endpoint request d r spec log :
  ep_request endpoint = Some request →
  getDefinition types (tn_name request) = Ok d →
  getProperties types fuel d = Ok r →
  jsonSpec !! ep_name endpoint = Some spec →
  ∃ ws, validateEndpoint types jsonSpec fuel endpoint log = (log ++ ws, Ok tt) ∧
        let query_ws := filter (fun w => is_query_warning w) ws in
        (params spec = None → query_ws = []) ∧
        (∀ params_, params spec = Some params_ →
           query_ws =
             (QueryNotInSpec (tn_name request) <$>
                filter (fun name => name ∉ Object_keys params_) (names (query r))) ++
             (QueryNotInModel (tn_name request) <$>
                filter (fun name => name ∉ names (query r)) (Object_keys params_))) ∧
        (∀ params_ w, params spec = Some params_ →
           w ∈ query_ws ↔
           (∃ name, w = QueryNotInSpec (tn_name request) name ∧
                    name ∈ names (query r) ∧ name ∉ Object_keys params_) ∨
           (∃ name, w = QueryNotInModel (tn_name request) name ∧
                    name ∈ Object_keys params_ ∧ name ∉ names (query r))).
Proof.
  intros Hrequest Hd Hr Hspec. exists (endpointWarnings (tn_name request) r spec).
  split; [by rewrite validateEndpoint_eq, Hrequest, Hd, Hr, Hspec|].
  cbv zeta. rewrite filter_query_warnings. unfold queryWarnings. split_and!.
  - by intros ->.
  - by intros params_ ->.
  - intros params_ w ->. rewrite elem_of_app, !list_elem_of_fmap.
    setoid_rewrite missing_from_elem_of. naive_solver.
Qed.

Lemma query_reconciliation_witness :
  ∃ ws, validateEndpoint example_types example_jsonSpec 3 mget [] = ([] ++ ws, Ok tt) ∧
        filter (fun w => is_query_warning w) ws =
        [QueryNotInSpec "MultiGetRequest" "source_enabled";
         QueryNotInSpec "MultiGetRequest" "source_exclude";
         QueryNotInSpec "MultiGetRequest" "source_include";
         QueryNotInModel "MultiGetRequest" "_source"].
Proof.
  destruct (query_reconciliation example_types example_jsonSpec 3 mget
              (global "MultiGetRequest") MultiGetRequest
              {| path := []; query := own_query MultiGetRequest; body_ := noBody |}
              mget_spec [])
    as (ws & Hws & _ & Hquery & _); [reflexivity..|].
  exists ws. split; [exact Hws|].
  rewrite (Hquery _ eq_refl). reflexivity.
Defined.

Lemma fmap_missing_from_nil (W : string -> Warning) present l :
  W <$> missing_from present l = [] ↔ ∀ name, name ∈ l → name ∈ present.
Proof.
  unfold missing_from. split.
  - intros Hnil%fmap_nil_inv name Hname.
    destruct (decide (name ∈ present)) as [|Hnot]; [done|].
    destruct (filter_nil_not_elem_of _ _ name Hnil Hnot Hname).
  - intros Hl. rewrite filter_none; [done|]. intros name Hname Hnot. by apply Hnot, Hl.
Qed.

(** X7: the comparison of an endpoint writes nothing exactly when the
    model and the json spec agree: the names of the flattened path
    properties are the url parts; when the json spec has [params], the
    names of the flattened query properties are its keys; a flattened body
    comes with a body in the json spec; and a body that the json spec
    requires comes with a flattened body. *)
Theorem reconcile_silent_iff request r spec log :
  reconcile request r spec log = (log, Ok tt) ↔
  (∀ name, name ∈ names (path r) ↔ name ∈ urlParts spec) ∧
  (∀ params_, params spec = Some params_ →
              ∀ name, name ∈ names (query r) ↔ name ∈ Object_keys params_) ∧
  (body_ r = yesBody → is_Some (body spec)) ∧
  (∀ b, body spec = Some b → required b = Some true → body_ r = yesBody).
Proof.
  rewrite reconcile_eq.
  assert ((log ++ endpointWarnings (tn_name request) r spec, Ok ()) = (log, Ok ()) ↔
          endpointWarnings (tn_name request) r spec = []) as ->.
  { split; [|intros ->; by rewrite app_nil_r].
    intros [= Heq]. apply (app_inv_head log). by rewrite app_nil_r. }
  unfold endpointWarnings, pathWarnings.
  rewrite !app_nil, !fmap_missing_from_nil.
  assert (queryWarnings (tn_name request) r spec = [] ↔
          ∀ params_, params spec = Some params_ →
                     ∀ name, name ∈ names (query r) ↔ name ∈ Object_keys params_) as ->.
  { unfold queryWarnings. destruct (params spec) as [params_|].
    - rewrite app_nil, !fmap_missing_from_nil. split.
      + intros [H1 H2] ? [= <-] name. split; auto.
      + intros H. split; intros name; by apply (H params_ eq_refl).
    - split; [by intros _ ? [=]|done]. }
  assert (bodyWarnings (tn_name request) r spec = [] ↔
          (body_ r = yesBody → is_Some (body spec)) ∧
          (∀ b, body spec = Some b → required b = Some true → body_ r = yesBody)) as ->.
  { unfold bodyWarnings. destruct (body_ r), (body spec) as [b|].
    - destruct (bool_decide (required b = Some true)) eqn:Hb.
      + apply bool_decide_eq_true in Hb. split; [done|]. intros [_ H].
        by specialize (H b eq_refl Hb).
      + apply bool_decide_eq_false in Hb. split; [|done]. intros _.
        split; [done|]. by intros ? [= <-] ?.
    - split; [|done]. intros _. split; [done|]. by intros ? [=].
    - split; [|done]. intros _. split; [by eexists|done].
    - split; [done|]. intros [H _]. by destruct (H eq_refl). }
  naive_solver.
Qed.

(** X8: the warnings that the comparison of an endpoint writes come in
    three groups, the path warnings, then the query warnings, then the
    body warnings; each is about the request of the endpoint; and there is
    at most one body warning. *)
Theorem reconcile_shape request r spec log :
  ∃ ws,
    reconcile request r spec log = (log ++ ws, Ok tt) ∧
    ws = filter (fun w => is_path_warning w) ws ++
         filter (fun w => is_query_warning w) ws ++
         filter (fun w => is_body_warning w) ws ∧
    (∀ w, w ∈ ws → warning_request w = tn_name request) ∧
    length (filter (fun w => is_body_warning w) ws) ≤ 1.
Proof.
  exists (endpointWarnings (tn_name request) r spec).
  split; [apply reconcile_eq|].
  rewrite filter_path_warnings, filter_query_warnings, filter_body_warnings.
  split_and!; [done| |].
  - intros w. unfold endpointWarnings, pathWarnings, queryWarnings, bodyWarnings.
    rewrite !elem_of_app, !list_elem_of_fmap.
    intros [[(? & -> & _)|(? & -> & _)]|[Hquery|Hbody]]; [done..| |].
    + destruct (params spec); [|by apply elem_of_nil in Hquery].
      rewrite elem_of_app, !list_elem_of_fmap in Hquery.
      by destruct Hquery as [(? & -> & _)|(? & -> & _)].
    + destruct (body_ r), (body spec) as [b|];
        try destruct (bool_decide (required b = Some true)); set_solver.
  - unfold bodyWarnings. destruct (body_ r), (body spec) as [b|];
      try destruct (bool_decide (required b = Some true)); simpl; lia.
Qed.

(** ** The json spec of an endpoint *)

(** X9: the json spec of an endpoint is looked up after its request has
    been flattened.  When the request of an endpoint flattens, the
    endpoint has no json spec and the endpoints before it are processed
    without an exception, the pass throws for the name of that endpoint;
    the console has the warnings of the endpoints before it and nothing
    else, and the endpoints after it are not processed. *)
Theorem validateRestSpec_missing_spec fuel model jsonSpec before endpoint after
    request d r log :
  endpoints model = before ++ endpoint :: after →
  ep_request endpoint = Some request →
  getDefinition (types model) (tn_name request) = Ok d →
  getProperties (types model) fuel d = Ok r →
  jsonSpec !! ep_name endpoint = None →
  for_of before (validateEndpoint (types model) jsonSpec fuel) [] = (log, Ok tt) →
  validateRestSpec fuel model jsonSpec [] = (log, Throw (SpecNotFound (ep_name endpoint))).
Proof.
  intros Hendpoints Hrequest Hd Hr Hspec Hbefore.
  rewrite validateRestSpec_eq, Hendpoints, for_of_app, Hbefore. simpl. unfold bind.
  by rewrite validateEndpoint_eq, Hrequest, Hd, Hr, Hspec.
Qed.

Lemma validateRestSpec_missing_spec_witness :
  validateRestSpec 4 no_spec_model example_jsonSpec [] =
  ([PathNotInModel "WithId" "version"], Throw (SpecNotFound "no_spec")).
Proof.
  apply (validateRestSpec_missing_spec 4 no_spec_model example_jsonSpec
           [get_id] no_spec [get_id] (global "WithIndex") WithIndex
           (ownProperties WithIndex)); reflexivity.
Defined.

(** What the body of the loop writes does not depend on what the console
    has already. *)
Lemma validateEndpoint_log types jsonSpec fuel endpoint log :
  validateEndpoint types jsonSpec fuel endpoint log =
  (log ++ endpointLog types jsonSpec fuel endpoint,
   (validateEndpoint types jsonSpec fuel endpoint []).2).
Proof.
  unfold endpointLog. rewrite !validateEndpoint_eq.
  destruct (ep_request endpoint) as [request|]; [|by rewrite app_nil_r].
  destruct (getDefinition _ _) as [d|e|]; [|by rewrite app_nil_r..].
  destruct (getProperties _ _ _) as [r|e|]; [|by rewrite app_nil_r..].
  destruct (jsonSpec !! _) as [spec|]; [done|by rewrite app_nil_r].
Qed.

Lemma for_of_validateEndpoint_log types jsonSpec fuel es log log' :
  for_of es (validateEndpoint types jsonSpec fuel) log = (log', Ok tt) →
  log' = log ++ mjoin (endpointLog types jsonSpec fuel <$> es).
Proof.
  revert log. induction es as [|endpoint es IH]; intros log.
  { intros [= <-]. by rewrite app_nil_r. }
  simpl. unfold bind. rewrite validateEndpoint_log.
  destruct (validateEndpoint types jsonSpec fuel endpoint []).2 as [[]|e|]; [|done..].
  intros ->%IH. by rewrite <- app_assoc.
Qed.

(** X10: when the pass completes, the console has what it had, followed by
    the warnings of the endpoints in the order of the endpoints, each
    endpoint with the warnings it has when processed alone on an empty
    console: nothing is carried from one endpoint to the next, and an
    endpoint that occurs twice is reported twice.  An endpoint without a
    request has no warnings; an endpoint with a request has those of the
    comparison of its flattened request with its json spec. *)
Theorem validateRestSpec_console fuel model jsonSpec log log' m :
  validateRestSpec fuel model jsonSpec log = (log', Ok m) →
  log' = log ++ mjoin (endpointLog (types model) jsonSpec fuel <$> endpoints model) ∧
  (∀ endpoint, endpoint ∈ endpoints model → ep_request endpoint = None →
               endpointLog (types model) jsonSpec fuel endpoint = []) ∧
  (∀ endpoint request, endpoint ∈ endpoints model → ep_request endpoint = Some request →
      ∃ d r spec,
        getDefinition (types model) (tn_name request) = Ok d ∧
        getProperties (types model) fuel d = Ok r ∧
        jsonSpec !! ep_name endpoint = Some spec ∧
        endpointLog (types model) jsonSpec fuel endpoint = (reconcile request r spec []).1).
Proof.
  rewrite validateRestSpec_eq.
  destruct (for_of _ _ log) as [log1 [[]|e|]] eqn:Hloop; [|done..].
  intros [= <- <-]. split_and!.
  - by apply for_of_validateEndpoint_log.
  - intros endpoint _ Hnull. unfold endpointLog. by rewrite validateEndpoint_eq, Hnull.
  - intros endpoint request (before & after & Hsplit)%list_elem_of_split Hrequest.
    rewrite Hsplit, for_of_app in Hloop.
    destruct (for_of before _ log) as [log0 [[]|e|]]; [|done..].
    simpl in Hloop. unfold bind in Hloop. unfold endpointLog.
    rewrite validateEndpoint_eq, Hrequest in Hloop |- *.
    destruct (getDefinition _ _) as [d|e|] eqn:Hd; [|by simpl in Hloop..].
    destruct (getProperties _ _ _) as [r|e|] eqn:Hr; [|by simpl in Hloop..].
    destruct (jsonSpec !! _) as [spec|] eqn:Hspec; [|by simpl in Hloop].
    exists d, r, spec. split_and!; [done..|]. by rewrite reconcile_eq.
Qed.

Lemma validateRestSpec_console_witness :
  [PathNotInModel "WithId" "version"; PathNotInModel "WithId" "version"] =
  [] ++ mjoin (endpointLog union_types example_jsonSpec 4 <$> [get_id; get_id]).
Proof.
  apply (validateRestSpec_console 4
           {| types := union_types; endpoints := [get_id; get_id] |} example_jsonSpec []
           [PathNotInModel "WithId" "version"; PathNotInModel "WithId" "version"]
           {| types := union_types; endpoints := [get_id; get_id] |}).
  reflexivity.
Defined.

(** ** The url parts *)

Lemma urlParts_part_names spec :
  urlParts spec = new_Set (flat_map part_names (paths (url spec))).
Proof.
  unfold urlParts. f_equal. induction (paths (url spec)) as [|path paths IH]; [done|].
  cbn [flat_map]. rewrite <- IH. unfold part_names.
  destruct (parts path) as [parts_|] eqn:Hparts.
  - rewrite filter_cons_True by (by eexists). cbn [flat_map]. by rewrite Hparts.
  - by rewrite filter_cons_False by (intros [? ?]; congruence).
Qed.

Lemma fold_Set_add_included array s :
  (∀ x, x ∈ array → x ∈ s) → fold_left Set_add array s = s.
Proof.
  revert s. induction array as [|x array IH]; intros s Hs; [done|].
  simpl. unfold Set_add at 2.
  rewrite (proj2 (includes_true s x)) by (apply Hs; left).
  apply IH. intros y Hy. apply Hs. by right.
Qed.

(** X11: a path of the json spec adds nothing to the url parts when it has
    no [parts], or when the names of its parts are all names of parts of
    paths before it: the url parts, and with them the path warnings, are
    those of the json spec without that path. *)
Theorem urlParts_redundant_path spec spec' before path after :
  paths (url spec) = before ++ path :: after →
  paths (url spec') = before ++ after →
  (∀ name, name ∈ part_names path →
           ∃ earlier, earlier ∈ before ∧ name ∈ part_names earlier) →
  urlParts spec = urlParts spec' ∧
  ∀ request r, pathWarnings request r spec = pathWarnings request r spec'.
Proof.
  intros Hspec Hspec' Hpath.
  assert (urlParts spec = urlParts spec') as Heq.
  { rewrite !urlParts_part_names, Hspec, Hspec'. unfold new_Set.
    rewrite !flat_map_app. simpl. rewrite !fold_left_app.
    f_equal. apply fold_Set_add_included. intros name Hname.
    apply fold_Set_add_elem_of. right.
    destruct (Hpath name Hname) as (earlier & Hearlier & Hin).
    apply list_elem_of_In, in_flat_map. exists earlier.
    by rewrite <- !list_elem_of_In. }
  split; [done|]. intros request r. unfold pathWarnings. by rewrite Heq.
Qed.

Lemma urlParts_redundant_path_witness :
  urlParts get_id_spec =
  urlParts {| url := {| paths := [ {| up_path := "/{id}";
                                      parts := Some [("id"%string, no_metadata)] |};
                                   {| up_path := "/{id}/{version}";
                                      parts := Some [("id"%string, no_metadata);
                                                     ("version"%string, no_metadata)] |} ] |};
              params := None; body := None |}.
Proof.
  apply (urlParts_redundant_path get_id_spec _
           [ {| up_path := "/{id}"; parts := Some [("id"%string, no_metadata)] |} ]
           {| up_path := "/_all"; parts := None |}
           [ {| up_path := "/{id}/{version}";
                parts := Some [("id"%string, no_metadata);
                               ("version"%string, no_metadata)] |} ]);
    [reflexivity|reflexivity|].
  intros name Hname. by apply elem_of_nil in Hname.
Defined.

(** ** The arrays that the pass builds *)

Lemma getPropertiesObj_arrays types fuel d heap heap' p :
  allocated heap types → ObjRI d ∈ types →
  getPropertiesObj types fuel d heap = (heap', Ok p) →
  ∃ P Q rest, heap' = heap ++ P :: Q :: rest.
Proof.
  intros Halloc Hd. destruct fuel as [|fuel]; [done|].
  rewrite getPropertiesObj_unfold by (intros array ?; by apply (Halloc (ObjRI d))).
  cbv zeta.
  destruct (mapR (getDefinitionObj types) (obj_inherit_names d)) as [ds|e|] eqn:Hds;
    [|done..].
  destruct (fold_of _ _ ds _) as [heap2 res2] eqn:Hfold.
  apply (fold_inheritObj_refines types fuel heap (getPropertiesObj_refines types fuel)
           Halloc) in Hfold as (P' & Q' & rest' & -> & _).
  2:{ intros d' Hd'. destruct (mapR_elem_of _ _ _ _ Hds Hd') as (name & _ & Hget).
      by eapply getDefinitionObj_elem_of. }
  destruct res2; [|done..]. intros [= <- _]. eauto.
Qed.

(** X12: the object that [getProperties] returns holds two arrays that did
    not exist before the call: they are no array of the model and differ
    from each other, so that the caller may write to them, as the loop
    over the inherited definitions does; they hold the flattened path and
    query properties. *)
Theorem getPropertiesObj_fresh types fuel d heap heap' p :
  allocated heap types → ObjRI d ∈ types →
  getPropertiesObj types fuel d heap = (heap', Ok p) →
  length heap ≤ obj_path p < length heap' ∧
  length heap ≤ obj_query p < length heap' ∧
  obj_path p ≠ obj_query p ∧
  (∀ t array, t ∈ types → array ∈ type_refs t →
              array ≠ obj_path p ∧ array ≠ obj_query p) ∧
  getProperties (type_in heap <$> types) fuel (definition_in heap d)
  = Ok (properties_in heap' p).
Proof.
  intros Halloc Hd Hrun.
  destruct (getPropertiesObj_arrays _ _ _ _ _ _ Halloc Hd Hrun) as (P & Q & rest & Hheap).
  destruct (getPropertiesObj_refines types fuel d heap heap' (Ok p) Halloc Hd Hrun)
    as (_ & Hrefs & Hpure).
  destruct (Hrefs p eq_refl) as [Hpath Hquery].
  assert (length heap + 2 ≤ length heap') by (rewrite Hheap, length_app; simpl; lia).
  split_and!; [lia..| |done].
  intros t array Ht Harray. specialize (Halloc t array Ht Harray). lia.
Qed.

Lemma getPropertiesObj_fresh_witness :
  let d := ObjRequest {| obj_req_name := global "WithIndex";
                         obj_req_path := 4; obj_req_query := 5; obj_req_body := None;
                         obj_req_inherits := None |} in
  let heap' := union_heap ++ [[property "index"]; [property "routing"]] in
  let p := {| obj_path := 6; obj_query := 7; obj_body := noBody |} in
  getPropertiesObj union_objects 2 d union_heap = (heap', Ok p) ∧
  6 ≤ obj_path p < length heap' ∧ 6 ≤ obj_query p < length heap' ∧
  properties_in heap' p =
  {| path := [property "index"]; query := [property "routing"]; body_ := noBody |}.
Proof.
  intros d heap' p. split; [reflexivity|].
  destruct (getPropertiesObj_fresh union_objects 2 d union_heap heap' p)
    as (Hpath & Hquery & _).
  - apply allocated_Forall. repeat constructor.
  - right. right. left.
  - reflexivity.
  - split; [exact Hpath|]. split; [exact Hquery|]. reflexivity.
Defined.

(** X13: however the pass ends, with the model, with an exception or out
    of call stack, it has written to no array of the model: the heap it
    leaves is the heap it was given followed by new arrays, the model
    stands for the same type model as before, and the console and the
    outcome are those of [validateRestSpec] on that type model. *)
Theorem validateRestSpecObj_never_writes fuel model jsonSpec heap log heap' log' outcome :
  allocated heap (obj_types model) →
  validateRestSpecObj fuel model jsonSpec (heap, log) = ((heap', log'), outcome) →
  (∃ new, heap' = heap ++ new) ∧
  (∀ array, array < length heap → heap' !! array = heap !! array) ∧
  model_in heap' model = model_in heap model ∧
  validateRestSpec fuel (model_in heap model) jsonSpec log
  = (log', model_in heap <$> outcome).
Proof.
  intros Halloc. unfold validateRestSpecObj, bind.
  destruct (for_of _ _ (heap, log)) as [[heap1 log1] res] eqn:Hloop.
  apply for_of_validateEndpointObj_refines in Hloop as ([new ->] & Hloop); [|done].
  intros Hout.
  assert (heap' = heap ++ new ∧ log' = log1 ∧
          outcome = match res with
                    | Ok _ => Ok model
                    | Throw e => Throw e
                    | OutOfFuel => OutOfFuel
                    end) as (-> & -> & ->).
  { destruct res as [[]|e|]; by injection Hout as <- <- <-. }
  split_and!; [by eexists| | |].
  - intros array Harray. by apply lookup_app_l.
  - unfold model_in. by rewrite types_in_app.
  - rewrite validateRestSpec_eq. cbn [types endpoints model_in]. rewrite Hloop.
    by destruct res as [[]|e|].
Qed.

Lemma validateRestSpecObj_never_writes_witness :
  let new := [[property "id"; property "index"]; [property "routing"];
              [property "id"]; []; [property "index"]; [property "routing"]] in
  let log := [QueryNotInSpec "GetRequest" "routing";
              QueryNotInModel "GetRequest" "preference"] in
  validateRestSpecObj 3 gone_objects union_jsonSpec (union_heap, [])
  = ((union_heap ++ new, log), Throw (DefinitionNotFound "Missing")) ∧
  model_in (union_heap ++ new) gone_objects = model_in union_heap gone_objects ∧
  validateRestSpec 3 (model_in union_heap gone_objects) union_jsonSpec []
  = (log, Throw (DefinitionNotFound "Missing")).
Proof.
  intros new log. split; [reflexivity|].
  destruct (validateRestSpecObj_never_writes 3 gone_objects union_jsonSpec union_heap []
              (union_heap ++ new) log (Throw (DefinitionNotFound "Missing")))
    as (_ & _ & Hmodel & Hrun).
  - apply allocated_Forall. repeat constructor.
  - reflexivity.
  - split; [exact Hmodel|exact Hrun].
Defined.
